(** * c4: the IR emitter and the type checker of the compiler

    A shallow embedding of [compiler.go] and [typecheck.go].  Go strings are
    byte strings ([string]), [uint] counters are [N] with their 64-bit
    wrap-around written out, Go maps are [gmap]s.  The maps of a [Namespace]
    are reference values shared between the namespace stack and the parent
    namespace's table, so they live in a store indexed by addresses.  A
    method that can panic returns a [Res]: either a value or the panic
    value, in both cases with the compiler as the method left it. *)

From Stdlib Require Import ZArith NArith Ascii String List Lia.
From stdpp Require Import base option list gmap strings pretty sorting.

Set Warnings "-clear-no-such-hyp".

(** ** Text helpers *)

Definition tab : string := String "009"%char EmptyString.
Definition nl : string := String "010"%char EmptyString.
Definition dquote : string := String "034"%char EmptyString.

(** [fmt.Sprintf("%c", b)] for a byte: the code point [b] in UTF-8. *)
Definition fmt_c (b : ascii) : string :=
  let n := N_of_ascii b in
  if (n <? 128)%N then String b EmptyString
  else String (ascii_of_N (N.lor 192 (N.shiftr n 6)))
         (String (ascii_of_N (N.lor 128 (N.land n 63))) EmptyString).

(** [uint] arithmetic: [x++] wraps at 2^64. *)
Definition uint_incr (x : N) : N := ((x + 1) mod 2 ^ 64)%N.

(** ** Operands *)

Definition Block := N.
Definition Temporary := N.
Bind Scope N_scope with Block Temporary.
Definition Global := string.
Definition IRInteger := string.

Record Loop := { Start : Block; End_ : Block }.

Inductive Operand :=
| OBlock (b : Block)
| OTemporary (t : Temporary)
| OGlobal (g : Global)
| OIRInteger (i : IRInteger)
| OCallOperand (Var : bool) (Func : Operand) (Args : list TypedOperand)
with TypedOperand :=
| mkTypedOperand (Ty : string) (Op : Operand).

Definition Arg_Ty (a : TypedOperand) : string := let 'mkTypedOperand ty _ := a in ty.
Definition Arg_Op (a : TypedOperand) : Operand := let 'mkTypedOperand _ op := a in op.

Definition Block_Operand (b : Block) : string := "@b" +:+ pretty b.
Definition Block_String (b : Block) : string := Block_Operand b.

Definition Temporary_IsZero (t : Temporary) : bool := bool_decide (t = 0%N).
Definition Temporary_Operand (t : Temporary) : string := "%t" +:+ pretty t.
Definition Temporary_String (t : Temporary) : string := Temporary_Operand t.

Definition Global_Operand (g : Global) : string := "$" +:+ g.
Definition Global_String (g : Global) : string := Global_Operand g.

Definition IRInt (i : Z) : IRInteger := pretty i.
Definition IRInteger_Operand (i : IRInteger) : string := i.

(** The argument loop of [CallOperand.Operand], over the rendering of the
    operands; [i] is the loop index and [b] the builder. *)
Fixpoint CallOperand_args (render : Operand → string) (i : nat)
    (args : list TypedOperand) (b : string) : string :=
  match args with
  | [] => b
  | arg :: rest =>
      let b := if bool_decide (0 < i) then b +:+ ", " else b in
      let b := if bool_decide (Arg_Ty arg = "h") || bool_decide (Arg_Ty arg = "b")
               then b +:+ "w" else b +:+ Arg_Ty arg in
      let b := b +:+ " " in
      let b := b +:+ render (Arg_Op arg) in
      CallOperand_args render (S i) rest b
  end.

Fixpoint Operand_Operand (o : Operand) : string :=
  match o with
  | OBlock b => Block_Operand b
  | OTemporary t => Temporary_Operand t
  | OGlobal g => Global_Operand g
  | OIRInteger i => IRInteger_Operand i
  | OCallOperand var func args =>
      let b := Operand_Operand func in
      let b := b +:+ "(" in
      let b := CallOperand_args Operand_Operand 0 args b in
      let b := if var then b +:+ ", ..." else b in
      b +:+ ")"
  end.

(** [%s] applied to an operand.  [Block], [Temporary] and [Global] have a
    [String] method (their [Operand]); an [IRInteger] is a plain string; a
    [CallOperand] has no [String] method, so [fmt] prints the struct field by
    field. *)
Fixpoint fmt_s_args (render : Operand → string) (i : nat)
    (args : list TypedOperand) (b : string) : string :=
  match args with
  | [] => b
  | arg :: rest =>
      let b := if bool_decide (0 < i) then b +:+ " " else b in
      fmt_s_args render (S i) rest
        (b +:+ "{" +:+ Arg_Ty arg +:+ " " +:+ render (Arg_Op arg) +:+ "}")
  end.

Fixpoint fmt_s (o : Operand) : string :=
  match o with
  | OBlock b => Block_String b
  | OTemporary t => Temporary_String t
  | OGlobal g => Global_String g
  | OIRInteger i => i
  | OCallOperand var func args =>
      "{%!s(bool=" +:+ (if var then "true" else "false") +:+ ") " +:+ fmt_s func
        +:+ " [" +:+ fmt_s_args fmt_s 0 args EmptyString +:+ "]}"
  end.

(** [IRString.String]: the data definition of a string constant, NUL
    terminated; printable ASCII in runs, other bytes as numbers. *)
Fixpoint IRString_loop (i : nat) (bytes : list ascii) (inStr : bool) (b : string) : string :=
  match bytes with
  | [] => b
  | ch :: rest =>
      let n := N_of_ascii ch in
      if ((32 <=? n) && (n <=? 126))%N then
        let b := if negb inStr
                 then (if bool_decide (0 < i) then b +:+ "," else b) +:+ " b " +:+ dquote
                 else b in
        IRString_loop (S i) rest true (b +:+ String ch EmptyString)
      else
        let b := if inStr then b +:+ dquote else b in
        let b := if bool_decide (0 < i) then b +:+ "," else b in
        IRString_loop (S i) rest false (b +:+ " b " +:+ pretty n)
  end.

Definition IRString_String (s : string) : string :=
  IRString_loop 0 (list_ascii_of_string s ++ ["000"%char]) false "{" +:+ " }".

(** ** Types and symbols *)

(** A namespace holds two Go maps.  Maps are reference values: the copy of a
    [Namespace] kept in the parent's table and the one on the namespace stack
    share them, so the record holds their addresses in the compiler's store. *)
Record Namespace := { NS_Name : string; NS_Vars : nat; NS_Typs : nat }.

(** Modelled from the spec: the type declarations (types.go) are not part of
    the sources.  The dynamic types behind Go's [Type] interface are the
    constructors: the base types (named as in [NewCompiler]), pointers (the
    generic pointer has no pointee), function types with an optional return
    type, arrays, structs, unions, the two literal types, and [Namespace],
    which is stored in the variable table of its parent.  Named types and
    aliases only live in the type slots and are left out. *)
#[warning="-register-all"]
Inductive Typ :=
| TypeI64 | TypeI32 | TypeI16 | TypeI8
| TypeU64 | TypeU32 | TypeU16 | TypeU8
| TypeF64 | TypeF32
| TypeBool
| PointerType (To : option Typ)
| FuncType (Param : list Typ) (Ret : option Typ)
| ArrayType (Elem : Typ) (Len : Z)
| StructType (Fields : list (string * Typ))
| UnionType (Fields : list (string * Typ))
| IntLitType
| FloatLitType
| NamespaceType (n : Namespace).

Record TypeMetrics := { Size : Z; Align : Z }.

Record Variable_ := { Loc : Operand; Var_Ty : Typ }.

Record IRParam := { Param_Name : string; Param_Ty : Typ }.

Record CompositeEntry := { Entry_Ty : string; Entry_N : Z }.
Definition CompositeLayout := list CompositeEntry.

(** ** The compiler *)

Record CompileResult := { typeW : string; codeW : string }.

Record Compiler := {
  r : CompileResult;
  blk : Block;
  temp : Temporary;
  ret : bool;                      (* the last emitted instruction was ret *)
  loop : list Loop;                (* loop stack *)
  ns : list Namespace;             (* namespace stack *)
  comp : list CompositeLayout;     (* composite types *)
  vars : gmap string Variable_;    (* local variable names *)
  strs : list string;              (* string constants *)
  strM : gmap string nat;          (* string to index of its entry in strs *)
  data : list Variable_;           (* global data *)
  (* the store behind the maps of the namespaces *)
  varsH : gmap nat (gmap string Typ);
  typsH : gmap nat (gmap string nat);
  slotH : gmap nat (option Typ)
}.

Definition set_r (x : CompileResult) (c : Compiler) : Compiler :=
  Build_Compiler x (blk c) (temp c) (ret c) (loop c) (ns c) (comp c) (vars c)
    (strs c) (strM c) (data c) (varsH c) (typsH c) (slotH c).
Definition set_blk (x : Block) (c : Compiler) : Compiler :=
  Build_Compiler (r c) x (temp c) (ret c) (loop c) (ns c) (comp c) (vars c)
    (strs c) (strM c) (data c) (varsH c) (typsH c) (slotH c).
Definition set_temp (x : Temporary) (c : Compiler) : Compiler :=
  Build_Compiler (r c) (blk c) x (ret c) (loop c) (ns c) (comp c) (vars c)
    (strs c) (strM c) (data c) (varsH c) (typsH c) (slotH c).
Definition set_ret (x : bool) (c : Compiler) : Compiler :=
  Build_Compiler (r c) (blk c) (temp c) x (loop c) (ns c) (comp c) (vars c)
    (strs c) (strM c) (data c) (varsH c) (typsH c) (slotH c).
Definition set_loop (x : list Loop) (c : Compiler) : Compiler :=
  Build_Compiler (r c) (blk c) (temp c) (ret c) x (ns c) (comp c) (vars c)
    (strs c) (strM c) (data c) (varsH c) (typsH c) (slotH c).
Definition set_ns (x : list Namespace) (c : Compiler) : Compiler :=
  Build_Compiler (r c) (blk c) (temp c) (ret c) (loop c) x (comp c) (vars c)
    (strs c) (strM c) (data c) (varsH c) (typsH c) (slotH c).
Definition set_comp (x : list CompositeLayout) (c : Compiler) : Compiler :=
  Build_Compiler (r c) (blk c) (temp c) (ret c) (loop c) (ns c) x (vars c)
    (strs c) (strM c) (data c) (varsH c) (typsH c) (slotH c).
Definition set_vars (x : gmap string Variable_) (c : Compiler) : Compiler :=
  Build_Compiler (r c) (blk c) (temp c) (ret c) (loop c) (ns c) (comp c) x
    (strs c) (strM c) (data c) (varsH c) (typsH c) (slotH c).
Definition set_strs (x : list string) (c : Compiler) : Compiler :=
  Build_Compiler (r c) (blk c) (temp c) (ret c) (loop c) (ns c) (comp c) (vars c)
    x (strM c) (data c) (varsH c) (typsH c) (slotH c).
Definition set_strM (x : gmap string nat) (c : Compiler) : Compiler :=
  Build_Compiler (r c) (blk c) (temp c) (ret c) (loop c) (ns c) (comp c) (vars c)
    (strs c) x (data c) (varsH c) (typsH c) (slotH c).
Definition set_data (x : list Variable_) (c : Compiler) : Compiler :=
  Build_Compiler (r c) (blk c) (temp c) (ret c) (loop c) (ns c) (comp c) (vars c)
    (strs c) (strM c) x (varsH c) (typsH c) (slotH c).
Definition set_varsH (x : gmap nat (gmap string Typ)) (c : Compiler) : Compiler :=
  Build_Compiler (r c) (blk c) (temp c) (ret c) (loop c) (ns c) (comp c) (vars c)
    (strs c) (strM c) (data c) x (typsH c) (slotH c).
Definition set_typsH (x : gmap nat (gmap string nat)) (c : Compiler) : Compiler :=
  Build_Compiler (r c) (blk c) (temp c) (ret c) (loop c) (ns c) (comp c) (vars c)
    (strs c) (strM c) (data c) (varsH c) x (slotH c).
Definition set_slotH (x : gmap nat (option Typ)) (c : Compiler) : Compiler :=
  Build_Compiler (r c) (blk c) (temp c) (ret c) (loop c) (ns c) (comp c) (vars c)
    (strs c) (strM c) (data c) (varsH c) (typsH c) x.

(** ** Panics *)

(** A Go panic carries either a message (every [panic] of the compiler) or a
    run-time error value raised by the language itself. *)
Inductive RuntimeError :=
| TypeAssertionError
| IndexOutOfRange
| SliceBoundsOutOfRange
| NilMapAssignment
| NilDereference.

Inductive PanicValue :=
| PanicString (msg : string)
| PanicRuntime (e : RuntimeError).

Inductive Res (A : Type) :=
| Ok (a : A) (c : Compiler)
| Panic (v : PanicValue) (c : Compiler).
Arguments Ok {A} a c.
Arguments Panic {A} v c.

Definition M (A : Type) : Type := Compiler → Res A.

#[global] Instance M_ret : MRet M := λ A a c, Ok a c.
#[global] Instance M_bind : MBind M := λ A B f m c,
  match m c with
  | Ok a c' => f a c'
  | Panic v c' => Panic v c'
  end.

Definition panic {A} (msg : string) : M A := λ c, Panic (PanicString msg) c.
Definition throw {A} (e : RuntimeError) : M A := λ c, Panic (PanicRuntime e) c.
Definition gets {A} (f : Compiler → A) : M A := λ c, Ok (f c) c.
Definition modify (f : Compiler → Compiler) : M unit := λ c, Ok tt (f c).

Definition res_state {A} (x : Res A) : Compiler :=
  match x with Ok _ c => c | Panic _ c => c end.

(** ** Construction *)

Definition baseTypes : list (string * Typ) :=
  [("I64", TypeI64); ("I32", TypeI32); ("I16", TypeI16); ("I8", TypeI8);
   ("U64", TypeU64); ("U32", TypeU32); ("U16", TypeU16); ("U8", TypeU8);
   ("F64", TypeF64); ("F32", TypeF32);
   ("Bool", TypeBool)].

(** The root namespace has the empty prefix; each base type gets a slot of
    its own (Go's map iteration order only permutes the slot addresses). *)
Definition NewCompiler : Compiler :=
  {| r := {| typeW := EmptyString; codeW := EmptyString |};
     blk := 0%N; temp := 0%N; ret := false;
     loop := [];
     ns := [ {| NS_Name := EmptyString; NS_Vars := 0; NS_Typs := 0 |} ];
     comp := [];
     vars := ∅; strs := []; strM := ∅; data := [];
     varsH := {[ 0 := ∅ ]};
     typsH := {[ 0 := list_to_map (imap (λ i p, (p.1, i)) baseTypes) ]};
     slotH := list_to_map (imap (λ i p, (i, Some p.2)) baseTypes) |}.

(** ** Emission *)

Definition Writef (s : string) (c : Compiler) : Compiler :=
  set_r {| typeW := typeW (r c); codeW := codeW (r c) +:+ s |} c.

(** The operand loop of [Insn]; the builder starts as the opcode. *)
Fixpoint Insn_operands (i : nat) (operands : list Operand) (b : string) : string :=
  match operands with
  | [] => b
  | operand :: rest =>
      let b := if bool_decide (0 < i) then b +:+ "," else b in
      let b := b +:+ " " in
      let b := b +:+ Operand_Operand operand in
      Insn_operands (S i) rest b
  end.

Definition Insn (retVar : Temporary) (retType : ascii) (opcode : string)
    (operands : list Operand) (c : Compiler) : Compiler :=
  (* Skip all instructions after ret since they're unreachable *)
  if ret c then c else
  let b := Insn_operands 0 operands opcode in
  let c :=
    if Temporary_IsZero retVar then Writef (tab +:+ b +:+ nl) c
    else Writef (tab +:+ Temporary_String retVar +:+ " =" +:+ fmt_c retType
                   +:+ " " +:+ b +:+ nl) c in
  set_ret (bool_decide (opcode = "ret")) c.

Definition StartBlock (block : Block) (c : Compiler) : Compiler :=
  let c := Writef (Block_String block +:+ nl) c in
  set_ret false c.

Definition Compiler_Block (c : Compiler) : Block * Compiler :=
  let c := set_blk (uint_incr (blk c)) c in
  (blk c, c).

Definition Compiler_Temporary (c : Compiler) : Temporary * Compiler :=
  let c := set_temp (uint_incr (temp c)) c in
  (temp c, c).

Definition StartLoop (start end_ : Block) (c : Compiler) : Compiler :=
  set_loop (loop c ++ [ {| Start := start; End_ := end_ |} ]) c.

Definition EndLoop : M unit := λ c,
  match loop c with
  | [] => Panic (PanicRuntime SliceBoundsOutOfRange) c
  | _ => Ok tt (set_loop (removelast (loop c)) c)
  end.

Definition Compiler_Loop : M Loop := λ c,
  match last (loop c) with
  | Some l => Ok l c
  | None => Panic (PanicRuntime IndexOutOfRange) c
  end.

Definition EndFunction (c : Compiler) : Compiler :=
  let c := if negb (ret c) then Insn 0%N "000"%char "ret" [] c else c in
  let c := Writef ("}" +:+ nl) c in
  (* Reset local information *)
  let c := set_temp 0%N c in
  let c := set_blk 0%N c in
  let c := set_ret false c in
  set_vars ∅ c.

(** ** Namespaces *)

(** Reading a map: a missing (nil) map has no entries.  Writing to it is a
    run-time panic. *)
Definition Vars_load (a : nat) (name : string) (c : Compiler) : option Typ :=
  varsH c !! a ≫= λ m, m !! name.

Definition Vars_store (a : nat) (name : string) (ty : Typ) : M unit := λ c,
  match varsH c !! a with
  | Some m => Ok tt (set_varsH (<[a := <[name := ty]> m]> (varsH c)) c)
  | None => Panic (PanicRuntime NilMapAssignment) c
  end.

Definition Typs_load (a : nat) (name : string) (c : Compiler) : option nat :=
  typsH c !! a ≫= λ m, m !! name.

Definition Typs_store (a : nat) (name : string) (slot : nat) : M unit := λ c,
  match typsH c !! a with
  | Some m => Ok tt (set_typsH (<[a := <[name := slot]> m]> (typsH c)) c)
  | None => Panic (PanicRuntime NilMapAssignment) c
  end.

(** [*ty] for a slot address handed out by [AliasType] or [NewCompiler]. *)
Definition slot_load (slot : nat) (c : Compiler) : option Typ :=
  default None (slotH c !! slot).

Definition NS : M Namespace := λ c,
  match last (ns c) with
  | Some n => Ok n c
  | None => Panic (PanicRuntime IndexOutOfRange) c
  end.

Definition StartNamespace (name : string) : M unit :=
  cur ← NS;
  va ← gets (λ c, fresh (dom (varsH c)));
  ta ← gets (λ c, fresh (dom (typsH c)));
  modify (λ c, set_typsH (<[ta := ∅]> (typsH c)) (set_varsH (<[va := ∅]> (varsH c)) c));;
  let ns_ := {| NS_Name := NS_Name cur +:+ name +:+ "."; NS_Vars := va; NS_Typs := ta |} in
  Vars_store (NS_Vars cur) name (NamespaceType ns_);;
  modify (λ c, set_ns (ns c ++ [ns_]) c).

Definition EndNamespace : M unit := λ c,
  match ns c with
  | [] => Panic (PanicRuntime SliceBoundsOutOfRange) c
  | _ =>
      let c := set_ns (removelast (ns c)) c in
      if bool_decide (length (ns c) = 0)
      then Panic (PanicString "[compiler bug] End of global namespace") c
      else Ok tt c
  end.

Definition AliasType (name : string) : M nat :=
  cur ← NS;
  found ← gets (Typs_load (NS_Typs cur) name);
  match found with
  | Some _ => panic "Type already exists"
  | None =>
      ty ← gets (λ c, fresh (dom (slotH c)));
      modify (λ c, set_slotH (<[ty := None]> (slotH c)) c);;
      Typs_store (NS_Typs cur) name ty;;
      mret ty
  end.

(** The walk of [Type] from the root namespace along the path. *)
Fixpoint Type_walk (ns_ : Namespace) (path : list string) : M Namespace :=
  match path with
  | [] => mret ns_
  | elem :: rest =>
      found ← gets (Vars_load (NS_Vars ns_) elem);
      match found with
      | Some (NamespaceType n) => Type_walk n rest
      | _ => panic (elem +:+ " is not a namespace")
      end
  end.

Definition Compiler_Type (path : list string) : M (option Typ) :=
  match last path with
  | None => throw IndexOutOfRange
  | Some name =>
      let path := removelast path in
      here ← (if bool_decide (length path = 0) then
                cur ← NS; gets (Typs_load (NS_Typs cur) name)
              else mret None);
      match here with
      | Some ty => gets (slot_load ty)
      | None =>
          root ← (λ c, match ns c !! 0 with
                       | Some n => Ok n c
                       | None => Panic (PanicRuntime IndexOutOfRange) c
                       end);
          ns_ ← Type_walk root path;
          found ← gets (Typs_load (NS_Typs ns_) name);
          match found with
          | Some ty => gets (slot_load ty)
          | None => panic ("Unknown type: " +:+ name)
          end
      end
  end.

(** ** Composite layouts *)

Fixpoint Ident_loop (l : CompositeLayout) (b : string) : string :=
  match l with
  | [] => b
  | entry :: rest =>
      let b :=
        if bool_decide (1 < String.length (Entry_Ty entry))
        then (* X and Y act as parentheses *)
          b +:+ "X" +:+ Entry_Ty entry +:+ "Y"
        else b +:+ Entry_Ty entry in
      let b := if bool_decide (1 < Entry_N entry)%Z
               then b +:+ pretty (Entry_N entry) else b in
      Ident_loop rest b
  end.

Definition Ident (l : CompositeLayout) : string := Ident_loop l ":".

Fixpoint GenType_loop (i : nat) (l : CompositeLayout) (w : string) : string :=
  match l with
  | [] => w
  | entry :: rest =>
      let w := if bool_decide (0 < i) then w +:+ ", " else w in
      let w := w +:+ Entry_Ty entry in
      let w := if bool_decide (1 < Entry_N entry)%Z
               then w +:+ " " +:+ pretty (Entry_N entry) else w in
      GenType_loop (S i) rest w
  end.

Definition GenType_text (l : CompositeLayout) (w : string) : string :=
  let w := w +:+ "type " in
  let w := w +:+ Ident l in
  let w := w +:+ " = { " in
  let w := GenType_loop 0 l w in
  w +:+ " }" +:+ nl.

Definition GenType (l : CompositeLayout) (c : Compiler) : Compiler :=
  set_r {| typeW := GenType_text l (typeW (r c)); codeW := codeW (r c) |} c.

(** [strings.Compare]: bytewise lexicographic comparison, as -1, 0 or 1. *)
Definition strings_Compare (a b : string) : Z :=
  match String.compare a b with
  | Eq => 0
  | Lt => -1
  | Gt => 1
  end.

(** [copy(s[d:], s[f:])] on one slice: as many elements as both ranges hold. *)
Definition slice_copy {A} (d f : nat) (s : list A) : list A :=
  let n := Nat.min (length s - d) (length s - f) in
  take d s ++ take n (drop f s) ++ drop (d + n) s.

Fixpoint CompositeType_loop (ident : string) (layout : CompositeLayout) (i : nat)
    (rest : list CompositeLayout) (c : Compiler) : Compiler :=
  match rest with
  | [] => (* Append *) set_comp (comp c ++ [layout]) c
  | layout_ :: rest =>
      let cmp := strings_Compare (Ident layout_) ident in
      if bool_decide (cmp = 0)%Z then (* Return *) c
      else if bool_decide (cmp = 1)%Z then
        (* Insert *)
        let c := set_comp (comp c ++ [[]]) c in
        let c := set_comp (slice_copy (i + 1) i (comp c)) c in
        set_comp (<[i := layout]> (comp c)) c
      else CompositeType_loop ident layout (S i) rest c
  end.

Definition CompositeType (layout : CompositeLayout) (c : Compiler) : string * Compiler :=
  let ident := Ident layout in
  (ident, CompositeType_loop ident layout 0 (comp c) c).

(** ** Globals, variables, strings *)

Definition DeclareGlobal (extern : bool) (name : string) (ty : Typ) : M unit :=
  cur ← NS;
  found ← gets (Vars_load (NS_Vars cur) name);
  match found with
  | Some _ => panic "Variable already exists"
  | None =>
      Vars_store (NS_Vars cur) name ty;;
      if negb extern then
        modify (λ c, set_data
          (data c ++ [ {| Loc := OGlobal (NS_Name cur +:+ name); Var_Ty := ty |} ]) c)
      else mret tt
  end.

Definition nsVar (i : Z) (name : string) : M (option Variable_) := λ c,
  if bool_decide (0 ≤ i < Z.of_nat (length (ns c)))%Z then
    match ns c !! Z.to_nat i with
    | Some n =>
        match Vars_load (NS_Vars n) name c with
        | Some ty => Ok (Some {| Loc := OGlobal (NS_Name n +:+ name); Var_Ty := ty |}) c
        | None => Ok None c
        end
    | None => Panic (PanicRuntime IndexOutOfRange) c
    end
  else Panic (PanicRuntime IndexOutOfRange) c.

Definition Compiler_Variable (name : string) : M Variable_ :=
  local ← gets (λ c, vars c !! name);
  match local with
  | Some v => mret v
  | None =>
      len ← gets (λ c, Z.of_nat (length (ns c)));
      v ← nsVar (len - 1) name;
      match v with
      | Some v => mret v
      | None =>
          v ← nsVar 0 name;
          match v with
          | Some v => mret v
          | None => panic ("Undefined variable: " +:+ name)
          end
      end
  end.

Definition Compiler_String (str : string) (c : Compiler) : Global * Compiler :=
  match strM c !! str with
  | Some i => ("str" +:+ pretty i, c)
  | None =>
      let i := length (strs c) in
      let c := set_strM (<[str := i]> (strM c)) c in
      let c := set_strs (strs c ++ [str]) c in
      ("str" +:+ pretty i, c)
  end.

(** ** The methods of the types *)

(** Modelled from the spec: the methods of [Type] and [ConcreteType]
    (types.go) are not part of the sources; the compiler and the type checker
    are defined over any implementation of them.  [IRType] is what
    [IRTypeName] yields: the storage letter of a type that fits a register, or
    the aggregate layout that is pooled and named by its identifier.
    [implements_ConcreteType] and [implements_NumericType] tell whether the
    dynamic type satisfies the Go interface of that name. *)
Class TypeMethods := {
  Concrete : Typ → Typ;
  IsConcrete : Typ → bool;
  Compatible : option Typ → option Typ → bool;
  Metrics : Typ → TypeMetrics;
  IRType : Typ → string + CompositeLayout;
  IRBaseTypeName : Typ → ascii;
  implements_ConcreteType : Typ → bool;
  implements_NumericType : Typ → bool
}.

(** Modelled from the spec: the syntax tree (ast.go) is not part of the
    sources; these are the expression nodes that typecheck.go types. *)
#[warning="-register-all"]
Inductive Expr :=
| AssignExpr (L R : Expr)
| CallExpr (Func : Expr) (Args : list Expr)
| VarExpr (name : string)
| RefExpr (V : Expr)
| DerefExpr (V : Expr)
| BinaryExpr (L : Expr) (Op : string) (R : Expr)
| IntegerExpr (lit : string)
| FloatExpr (lit : string)
| StringExpr (lit : string).

(** What [Compile] hands back: its two results, or a panic it re-raised. *)
Inductive Outcome :=
| Returned (res : option CompileResult) (err : option string)
| Escaped (v : PanicValue).

Section Lowering.
Context `{TypeMethods}.

(** Modelled from the spec: [IRTypeName] (types.go) is not part of the
    sources.  It takes the compiler because the layout of an aggregate is
    pooled through [CompositeType], whose result, the identifier, names the
    type; any other type is named by its letter. *)
Definition IRTypeName (ty : Typ) (c : Compiler) : string * Compiler :=
  match IRType ty with
  | inl letter => (letter, c)
  | inr layout => CompositeType layout c
  end.

Definition allocLocal (loc : Temporary) (ty : Typ) : M unit :=
  let m := Metrics ty in
  if bool_decide (Align m ≤ 4)%Z then
    modify (Insn loc "l" "alloc4" [OIRInteger (IRInt (Size m))])
  else if bool_decide (Align m ≤ 8)%Z then
    modify (Insn loc "l" "alloc8" [OIRInteger (IRInt (Size m))])
  else if bool_decide (Align m ≤ 16)%Z then
    modify (Insn loc "l" "alloc16" [OIRInteger (IRInt (Size m))])
  else panic "Invalid alignment".

(** The first loop of [StartFunction]: the parameter list of the header. *)
Fixpoint StartFunction_params (i : nat) (params : list IRParam)
    (pbuild : string) (ptemps : list Temporary) (c : Compiler)
    : string * list Temporary * Compiler :=
  match params with
  | [] => (pbuild, ptemps, c)
  | param :: rest =>
      let pbuild := if bool_decide (0 < i) then pbuild +:+ ", " else pbuild in
      let '(ptype, c) := IRTypeName (Param_Ty param) c in
      let ptype := if bool_decide (ptype = "b") || bool_decide (ptype = "h")
                   then "w" else ptype in
      let pbuild := pbuild +:+ ptype in
      let pbuild := pbuild +:+ " " in
      let '(t, c) := Compiler_Temporary c in
      let ptemps := <[i := t]> ptemps in
      let pbuild := pbuild +:+ Temporary_Operand (ptemps !!! i) in
      StartFunction_params (S i) rest pbuild ptemps c
  end.

(** The second loop of [StartFunction]: add the arguments to the locals. *)
Fixpoint StartFunction_locals (i : nat) (params : list IRParam)
    (ptemps : list Temporary) : M unit :=
  match params with
  | [] => mret tt
  | param :: rest =>
      loc ← (if bool_decide (IRBaseTypeName (Param_Ty param) ≠ "000"%char) then
               (* If it's a primitive, we need to alloc and copy *)
               loc ← (λ c, let '(t, c) := Compiler_Temporary c in Ok t c);
               allocLocal loc (Param_Ty param);;
               name ← (λ c, let '(n, c) := IRTypeName (Param_Ty param) c in Ok n c);
               modify (Insn 0 "000" ("store" +:+ name)
                         [OTemporary (ptemps !!! i); OTemporary loc]);;
               mret loc
             else mret (ptemps !!! i));
      modify (λ c, set_vars
        (<[Param_Name param := {| Loc := OTemporary loc; Var_Ty := Param_Ty param |}]>
           (vars c)) c);;
      StartFunction_locals (S i) rest ptemps
  end.

Definition StartFunction (export : bool) (name : string) (params : list IRParam)
    (retType : string) : M unit := λ c,
  let prefix := if export then "export " else EmptyString in
  let '(pbuild, ptemps, c) :=
    StartFunction_params 0 params EmptyString (replicate (length params) 0%N) c in
  let retType := if bool_decide (retType = "b") || bool_decide (retType = "h")
                 then "w" else retType in
  let retType := if bool_decide (retType ≠ EmptyString)
                 then retType +:+ " " else retType in
  match NS c with
  | Panic v c => Panic v c
  | Ok cur c =>
      let name := NS_Name cur +:+ name in
      let c := Writef (prefix +:+ "function " +:+ retType +:+ "$" +:+ name
                         +:+ "(" +:+ pbuild +:+ ") {" +:+ nl +:+ "@start" +:+ nl) c in
      StartFunction_locals 0 params ptemps c
  end.

(** The loop of [Finish] over the string constants. *)
Fixpoint Finish_strs (i : nat) (l : list string) (c : Compiler) : Compiler :=
  match l with
  | [] => c
  | str :: rest =>
      Finish_strs (S i) rest
        (Writef ("data $str" +:+ pretty i +:+ " = " +:+ IRString_String str +:+ nl) c)
  end.

Definition Finish_data (c : Compiler) (d : Variable_) : Compiler :=
  let m := Metrics (Concrete (Var_Ty d)) in
  Writef ("data " +:+ fmt_s (Loc d) +:+ " = align " +:+ pretty (Align m)
            +:+ " { z " +:+ pretty (Size m) +:+ " }" +:+ nl) c.

Definition Finish (c : Compiler) : Compiler :=
  (* Write composite types *)
  let c := foldl (λ c layout, GenType layout c) c (comp c) in
  (* Write strings *)
  let c := Finish_strs 0 (strs c) c in
  (* Write global data *)
  foldl Finish_data c (data c).

(** *** The type checker *)

(** The type switch of [CallExpr.typeOf] on the type of the callee. *)
Definition CallExpr_switch (t : option Typ) : M (list Typ * option Typ * bool) :=
  match t with
  | Some (FuncType params ret_) => mret (params, ret_, false)
  | Some (PointerType to) =>
      match to with
      | Some (FuncType params ret_) => mret (params, ret_, true)
      | _ => throw TypeAssertionError
      end
  | _ => panic "Invalid function type"
  end.

(** The body of [BinaryExpr.TypeOf] once both operands are typed. *)
Definition BinaryExpr_result (ltyp rtyp : option Typ) : M (option Typ) :=
  if negb (Compatible ltyp rtyp) then
    panic "Operands of binary expression are incompatible"
  else
    match ltyp with
    | None => throw NilDereference
    | Some lt =>
        let ctyp := Concrete lt in
        ctyp ← (if negb (IsConcrete lt) then
                  match rtyp with
                  | None => throw NilDereference
                  | Some rt => mret (if IsConcrete rt then Concrete rt else ctyp)
                  end
                else mret ctyp);
        if implements_NumericType ctyp then mret (Some ctyp)
        else panic "Operand of binary expression is of non-numeric type"
    end.

Fixpoint TypeOf (e : Expr) : M (option Typ) :=
  match e with
  | AssignExpr l r_ =>
      lt ← TypeOf l;
      match lt with
      | Some ltyp =>
          if implements_ConcreteType ltyp then
            rtyp ← TypeOf r_;
            if negb (Compatible (Some ltyp) rtyp)
            then panic "Operands of assignment are incompatible"
            else mret (Some ltyp)
          else panic "Lvalue of non-concrete type"
      | None => panic "Lvalue of non-concrete type"
      end
  | CallExpr func _ =>
      ft ← TypeOf func;
      t ← CallExpr_switch ft;
      mret (t.1.2)
  | VarExpr name =>
      v ← Compiler_Variable name;
      mret (Some (Var_Ty v))
  | RefExpr v =>
      t ← TypeOf v;
      match t with
      | Some ty =>
          if implements_ConcreteType ty then mret (Some (PointerType (Some ty)))
          else throw TypeAssertionError
      | None => throw TypeAssertionError
      end
  | DerefExpr v =>
      t ← TypeOf v;
      match t with
      | Some (PointerType to) => mret to
      | _ => panic "Dereference of non-pointer type"
      end
  | BinaryExpr l _ r_ =>
      ltyp ← TypeOf l;
      rtyp ← TypeOf r_;
      BinaryExpr_result ltyp rtyp
  | IntegerExpr _ => mret (Some IntLitType)
  | FloatExpr _ => mret (Some FloatLitType)
  | StringExpr _ =>
      (* TODO: immutable types *)
      mret (Some (PointerType (Some TypeI8)))
  end.

Definition CallExpr_typeOf (func : Expr) : M (list Typ * option Typ * bool) :=
  ft ← TypeOf func;
  CallExpr_switch ft.

(** *** The driver *)

(** Modelled from the spec: [GenProgram] (ast.go) is not part of the
    sources; [Compile] is defined over any lowering of programs to calls of
    the compiler's methods. *)
Context {Program : Type} (GenProgram : Program → M unit).

Definition compile (prog : Program) : M unit :=
  GenProgram prog;;
  modify Finish.

Definition Compile (prog : Program) (c : Compiler) : Outcome * Compiler :=
  match compile prog c with
  | Ok _ c =>
      let r_ := r c in
      let c := set_r {| typeW := EmptyString; codeW := EmptyString |} c in
      (Returned (Some r_) None, c)
  | Panic (PanicString e) c => (Returned None (Some e), c)
  | Panic v c => (Escaped v, c)
  end.

End Lowering.

Definition CompileResult_String (res : CompileResult) : string :=
  typeW res +:+ codeW res.

(** ** An implementation of the type methods *)

Module SpecTypes.

(** The definitions of this module model types.go, which is not part of
    the sources, from section 3 of the spec; they instantiate the type
    methods when a property is run on a concrete program. *)

(** Modelled from the spec: the concrete types are all types but the
    literal types; a namespace is a symbol, not a type of values (types.go is
    missing). *)
Definition is_concrete (ty : Typ) : bool :=
  match ty with IntLitType | FloatLitType | NamespaceType _ => false | _ => true end.

(** Modelled from the spec: the float types (types.go is missing). *)
Definition is_float (ty : Typ) : bool :=
  match ty with TypeF64 | TypeF32 => true | _ => false end.

(** Modelled from the spec: the numeric types (types.go is missing) are the
    base numeric types and [Bool], and the pointers, which pointer arithmetic
    types by the rule of binary expressions. *)
Definition is_numeric (ty : Typ) : bool :=
  match ty with
  | TypeI64 | TypeI32 | TypeI16 | TypeI8
  | TypeU64 | TypeU32 | TypeU16 | TypeU8
  | TypeF64 | TypeF32 | TypeBool => true
  | PointerType _ => true
  | _ => false
  end.

(** Modelled from the spec: [Concrete] (types.go is missing).  A literal
    type that nothing else fixes resolves to [I64] or [F64]; a concrete type
    is its own concrete type. *)
Definition concrete (ty : Typ) : Typ :=
  match ty with
  | IntLitType => TypeI64
  | FloatLitType => TypeF64
  | _ => ty
  end.

(** Modelled from the spec: the identity of a base type (types.go is
    missing). *)
Definition base_tag (ty : Typ) : option nat :=
  match ty with
  | TypeI64 => Some 0 | TypeI32 => Some 1 | TypeI16 => Some 2 | TypeI8 => Some 3
  | TypeU64 => Some 4 | TypeU32 => Some 5 | TypeU16 => Some 6 | TypeU8 => Some 7
  | TypeF64 => Some 8 | TypeF32 => Some 9 | TypeBool => Some 10
  | _ => None
  end.

(** Modelled from the spec: [Compatible] (types.go is missing): structural
    equality, a literal type with the numeric or float types, the generic
    pointer with any pointer. *)
Fixpoint compatible (a b : Typ) {struct a} : bool :=
  match a, b with
  | IntLitType, _ => is_numeric b || match b with IntLitType => true | _ => false end
  | FloatLitType, _ => is_float b || match b with FloatLitType => true | _ => false end
  | _, IntLitType => is_numeric a
  | _, FloatLitType => is_float a
  | PointerType None, PointerType _ => true
  | PointerType _, PointerType None => true
  | PointerType (Some x), PointerType (Some y) => compatible x y
  | FuncType ps ret_, FuncType ps' ret' =>
      (fix go (l l' : list Typ) : bool :=
         match l, l' with
         | [], [] => true
         | x :: l, y :: l' => compatible x y && go l l'
         | _, _ => false
         end) ps ps'
      && match ret_, ret' with
         | None, None => true
         | Some x, Some y => compatible x y
         | _, _ => false
         end
  | ArrayType e n, ArrayType e' n' => bool_decide (n = n') && compatible e e'
  | StructType fs, StructType fs' | UnionType fs, UnionType fs' =>
      (fix go (l l' : list (string * Typ)) : bool :=
         match l, l' with
         | [], [] => true
         | (_, x) :: l, (_, y) :: l' => compatible x y && go l l'
         | _, _ => false
         end) fs fs'
  | _, _ =>
      match base_tag a, base_tag b with
      | Some i, Some j => bool_decide (i = j)
      | _, _ => false
      end
  end.

(** Modelled from the spec: [Compatible] on types that may be absent, as
    the return type of a function without result is (types.go is missing). *)
Definition compatible_opt (a b : option Typ) : bool :=
  match a, b with
  | Some x, Some y => compatible x y
  | None, None => true
  | _, _ => false
  end.

(** Modelled from the spec: the smallest offset from [x] on that satisfies
    the alignment [a] (types.go is missing). *)
Definition align_up (x a : Z) : Z := ((x + a - 1) `div` a * a)%Z.

(** Modelled from the spec: [Metrics] (types.go is missing): structs pack
    their fields in order at aligned offsets and round the size up to the
    largest alignment, unions take the largest size and alignment, arrays
    repeat their element. *)
Fixpoint metrics (ty : Typ) : TypeMetrics :=
  match ty with
  | TypeI64 | TypeU64 | TypeF64 => {| Size := 8; Align := 8 |}
  | TypeI32 | TypeU32 | TypeF32 => {| Size := 4; Align := 4 |}
  | TypeI16 | TypeU16 => {| Size := 2; Align := 2 |}
  | TypeI8 | TypeU8 | TypeBool => {| Size := 1; Align := 1 |}
  | PointerType _ | FuncType _ _ => {| Size := 8; Align := 8 |}
  | ArrayType e n =>
      let m := metrics e in {| Size := Size m * n; Align := Align m |}
  | StructType fs =>
      (fix go (l : list (string * Typ)) (cursor align : Z) : TypeMetrics :=
         match l with
         | [] => {| Size := align_up cursor align; Align := align |}
         | (_, t) :: l =>
             let m := metrics t in
             go l (align_up cursor (Align m) + Size m)%Z (Z.max align (Align m))
         end) fs 0%Z 1%Z
  | UnionType fs =>
      (fix go (l : list (string * Typ)) (size align : Z) : TypeMetrics :=
         match l with
         | [] => {| Size := size; Align := align |}
         | (_, t) :: l =>
             let m := metrics t in
             go l (Z.max size (Size m)) (Z.max align (Align m))
         end) fs 0%Z 1%Z
  | IntLitType | FloatLitType => {| Size := 8; Align := 8 |}
  | NamespaceType _ => {| Size := 0; Align := 1 |}
  end.

(** Modelled from the spec: the name of an entry of a layout, a letter or
    the identifier of an aggregate (types.go is missing). *)
Definition entry_name (t : string + CompositeLayout) : string :=
  match t with inl letter => letter | inr layout => Ident layout end.

(** Modelled from the spec: append one entry to a layout, merging it with
    an equal last entry into a repeat count (types.go is missing). *)
Fixpoint push_entry (name : string) (n : Z) (l : CompositeLayout) : CompositeLayout :=
  match l with
  | [] => [ {| Entry_Ty := name; Entry_N := n |} ]
  | [e] => if bool_decide (Entry_Ty e = name)
           then [ {| Entry_Ty := name; Entry_N := Entry_N e + n |} ]
           else [e; {| Entry_Ty := name; Entry_N := n |}]
  | e :: l => e :: push_entry name n l
  end.

(** Modelled from the spec: the storage letter of a type that fits a
    register, the layout of an aggregate (types.go is missing).  A union is
    laid out as its largest field, an array as one repeated entry. *)
Fixpoint irType (ty : Typ) : string + CompositeLayout :=
  match ty with
  | TypeI64 | TypeU64 => inl "l"
  | TypeI32 | TypeU32 => inl "w"
  | TypeI16 | TypeU16 => inl "h"
  | TypeI8 | TypeU8 | TypeBool => inl "b"
  | TypeF64 => inl "d"
  | TypeF32 => inl "s"
  | PointerType _ | FuncType _ _ => inl "l"
  | ArrayType e n => inr [ {| Entry_Ty := entry_name (irType e); Entry_N := n |} ]
  | StructType fs =>
      inr ((fix go (l : list (string * Typ)) (acc : CompositeLayout) : CompositeLayout :=
              match l with
              | [] => acc
              | (_, t) :: l => go l (push_entry (entry_name (irType t)) 1 acc)
              end) fs [])
  | UnionType fs =>
      inr ((fix go (l : list (string * Typ)) (best : Z) (acc : CompositeLayout)
              : CompositeLayout :=
              match l with
              | [] => acc
              | (_, t) :: l =>
                  if bool_decide (best < Size (metrics t))%Z
                  then go l (Size (metrics t))
                         [ {| Entry_Ty := entry_name (irType t); Entry_N := 1 |} ]
                  else go l best acc
              end) fs 0%Z [])
  | IntLitType => inl "l"
  | FloatLitType => inl "d"
  | NamespaceType _ => inl EmptyString
  end.

(** Modelled from the spec: [IRBaseTypeName] (types.go is missing): [w] up
    to 32 bits and for [Bool], [l] for 64 bits and pointers, [s] and [d] for
    floats, the zero byte for an aggregate. *)
Definition irBaseTypeName (ty : Typ) : ascii :=
  match ty with
  | TypeI64 | TypeU64 | PointerType _ | FuncType _ _ | IntLitType => "l"
  | TypeI32 | TypeU32 | TypeI16 | TypeU16 | TypeI8 | TypeU8 | TypeBool => "w"
  | TypeF64 | FloatLitType => "d"
  | TypeF32 => "s"
  | _ => "000"
  end%char.

(** Modelled from the spec: the methods of the types (types.go is
    missing), as defined above. *)
Definition methods : TypeMethods :=
  {| Concrete := concrete;
     IsConcrete := is_concrete;
     Compatible := compatible_opt;
     Metrics := metrics;
     IRType := irType;
     IRBaseTypeName := irBaseTypeName;
     implements_ConcreteType := is_concrete;
     implements_NumericType := is_numeric |}.

End SpecTypes.

(** ** Programs as call sequences *)

(** Modelled from the spec: the lowering of the syntax tree (ast.go) is not
    part of the sources.  A program is given here by the calls its lowering
    makes on the compiler, in order; it serves to run [Compile] on concrete
    programs. *)
Inductive Call :=
| CallStartFunction (export : bool) (name : string) (params : list IRParam) (retType : string)
| CallEndFunction
| CallInsn (retVar : Temporary) (retType : ascii) (opcode : string) (operands : list Operand)
| CallStartBlock (block : Block)
| CallBlock
| CallTemporary
| CallStartNamespace (name : string)
| CallEndNamespace
| CallDeclareGlobal (extern : bool) (name : string) (ty : Typ)
| CallString (str : string)
| CallVariable (name : string)
| CallTypeOf (e : Expr).

Definition runCall `{TypeMethods} (k : Call) : M unit :=
  match k with
  | CallStartFunction export name params retType =>
      StartFunction export name params retType
  | CallEndFunction => modify EndFunction
  | CallInsn retVar retType opcode operands =>
      modify (Insn retVar retType opcode operands)
  | CallStartBlock block => modify (StartBlock block)
  | CallBlock => modify (λ c, (Compiler_Block c).2)
  | CallTemporary => modify (λ c, (Compiler_Temporary c).2)
  | CallStartNamespace name => StartNamespace name
  | CallEndNamespace => EndNamespace
  | CallDeclareGlobal extern name ty => DeclareGlobal extern name ty
  | CallString str => modify (λ c, (Compiler_String str c).2)
  | CallVariable name => Compiler_Variable name;; mret tt
  | CallTypeOf e => TypeOf e;; mret tt
  end.

Fixpoint GenCalls `{TypeMethods} (prog : list Call) : M unit :=
  match prog with
  | [] => mret tt
  | k :: rest => runCall k;; GenCalls rest
  end.

(** ** Vocabulary of the properties *)

(** *** Emission runs *)

(** The line [Insn] writes when emission is on. *)
Definition Insn_line (retVar : Temporary) (retType : ascii) (opcode : string)
    (operands : list Operand) : string :=
  if Temporary_IsZero retVar
  then tab +:+ Insn_operands 0 operands opcode +:+ nl
  else tab +:+ Temporary_String retVar +:+ " =" +:+ fmt_c retType +:+ " "
         +:+ Insn_operands 0 operands opcode +:+ nl.

(** An [Insn] call, as data. *)
Record InsnCall := {
  insn_retVar : Temporary;
  insn_retType : ascii;
  insn_opcode : string;
  insn_operands : list Operand
}.

Definition Insn_call (c : Compiler) (k : InsnCall) : Compiler :=
  Insn (insn_retVar k) (insn_retType k) (insn_opcode k) (insn_operands k) c.

(** What the lowering may call between two block labels of a function
    body: [Insn], and the methods that hand out temporaries, blocks, strings
    and layouts or push a loop. *)
Inductive Emission :=
| EmitInsn (k : InsnCall)
| EmitTemporary
| EmitBlock
| EmitString (str : string)
| EmitCompositeType (layout : CompositeLayout)
| EmitStartLoop (start end_ : Block).

Definition emit (c : Compiler) (e : Emission) : Compiler :=
  match e with
  | EmitInsn k => Insn_call c k
  | EmitTemporary => (Compiler_Temporary c).2
  | EmitBlock => (Compiler_Block c).2
  | EmitString str => (Compiler_String str c).2
  | EmitCompositeType layout => (CompositeType layout c).2
  | EmitStartLoop start end_ => StartLoop start end_ c
  end.

(** *** Text *)

(** The rule in the spec's words: letters [b] and [h] are rewritten to [w],
    any other letter stays. *)
Definition promote (letter : string) : string :=
  if bool_decide (letter = "b" ∨ letter = "h") then "w" else letter.

(** Every element of [l] with [sep] before it. *)
Fixpoint prefixed (sep : string) (l : list string) : string :=
  match l with
  | [] => EmptyString
  | x :: l => sep +:+ x +:+ prefixed sep l
  end.

(** The elements of [l] separated by [sep]. *)
Definition join (sep : string) (l : list string) : string :=
  match l with
  | [] => EmptyString
  | x :: l => x +:+ prefixed sep l
  end.

(** The strings of [l] one after the other. *)
Fixpoint sconcat (l : list string) : string :=
  match l with
  | [] => EmptyString
  | x :: l => x +:+ sconcat l
  end.

(** The [n] temporaries handed out after [t]. *)
Fixpoint fresh_temps (t : Temporary) (n : nat) : list Temporary :=
  match n with
  | 0 => []
  | S n => uint_incr t :: fresh_temps (uint_incr t) n
  end.

(** An argument of a call operand, in the spec's words. *)
Definition call_arg_text (a : TypedOperand) : string :=
  promote (Arg_Ty a) +:+ " " +:+ Operand_Operand (Arg_Op a).

(** The data definition of the pooled string number [i]. *)
Definition str_line (i : nat) (str : string) : string :=
  "data $str" +:+ pretty i +:+ " = " +:+ IRString_String str +:+ nl.

Definition str_lines (l : list string) : list string := imap str_line l.

(** The declaration [GenType] writes for a layout. *)
Definition GenType_decl (l : CompositeLayout) : string :=
  GenType_text l EmptyString.

(** *** Pools *)

(** The map and the list of the pool describe each other. *)
Definition strpool_wf (c : Compiler) : Prop :=
  ∀ s i, strM c !! s = Some i ↔ strs c !! i = Some s.

(** [String] called on each string of [ss] in turn. *)
Definition intern_all (ss : list string) (c : Compiler) : Compiler :=
  foldl (λ c s, (Compiler_String s c).2) c ss.

(** Layouts are ordered by their identifiers. *)
Definition ident_lt (a b : CompositeLayout) : Prop :=
  strings_Compare (Ident a) (Ident b) = (-1)%Z.

Definition comp_sorted (c : Compiler) : Prop := StronglySorted ident_lt (comp c).

(** Insertion at the sorted position, keeping an entry of the same
    identifier. *)
Fixpoint insert_sorted (layout : CompositeLayout) (l : list CompositeLayout)
    : list CompositeLayout :=
  match l with
  | [] => [layout]
  | x :: rest =>
      match String.compare (Ident x) (Ident layout) with
      | Eq => x :: rest
      | Gt => layout :: x :: rest
      | Lt => x :: insert_sorted layout rest
      end
  end.

(** The two pools are consistent. *)
Definition pools_inv (c : Compiler) : Prop := strpool_wf c ∧ comp_sorted c.

(** The second compiler has the pools of the first. *)
Definition same_pools (c c' : Compiler) : Prop :=
  strs c' = strs c ∧ strM c' = strM c ∧ comp c' = comp c.

(** *** Globals and locals *)

(** The data entry of a declaration [(extern, name, type)] made in [cur]. *)
Definition global_of (cur : Namespace) (d : bool * string * Typ) : Variable_ :=
  {| Loc := OGlobal (NS_Name cur +:+ d.1.2); Var_Ty := d.2 |}.

(** The globals among the declarations that are not extern. *)
Definition defined_globals (cur : Namespace) (decls : list (bool * string * Typ))
    : list Variable_ :=
  map (global_of cur) (filter (λ d, d.1.1 = false) decls).

(** [DeclareGlobal] called on each declaration in turn. *)
Fixpoint declare_all (decls : list (bool * string * Typ)) : M unit :=
  match decls with
  | [] => mret tt
  | d :: rest => DeclareGlobal d.1.1 d.1.2 d.2;; declare_all rest
  end.

(** A name bound in the local table to a temporary. *)
Definition temp_bound (c : Compiler) (name : string) : Prop :=
  ∃ t ty, vars c !! name = Some {| Loc := OTemporary t; Var_Ty := ty |}.

(** A program whose lowering declares a global, opens a function with an
    aggregate parameter, takes a block and a string, and then looks up a
    variable that does not exist. *)
Definition failing_program : list Call :=
  [ CallDeclareGlobal false "g" TypeI32;
    CallStartFunction false "f"
      [ {| Param_Name := "x"; Param_Ty := StructType [("a", TypeI32)] |} ] EmptyString;
    CallBlock;
    CallString "hi";
    CallVariable "y" ].

Section Vocabulary.
Context `{TypeMethods}.

(** What [IRTypeName] returns: the letter, or the identifier of the layout. *)
Definition IRTypeName_text (ty : Typ) : string :=
  match IRType ty with
  | inl letter => letter
  | inr layout => Ident layout
  end.

(** A parameter of a function header, in the spec's words. *)
Definition param_text (p : IRParam) (t : Temporary) : string :=
  promote (IRTypeName_text (Param_Ty p)) +:+ " " +:+ Temporary_Operand t.

(** The header line of a function, in the spec's words. *)
Definition header_text (export : bool) (retType name : string)
    (params : list IRParam) (temps : list Temporary) : string :=
  (if export then "export " else EmptyString) +:+ "function "
    +:+ (if bool_decide (retType = EmptyString) then EmptyString
         else promote retType +:+ " ")
    +:+ "$" +:+ name +:+ "(" +:+ join ", " (zip_with param_text params temps)
    +:+ ") {" +:+ nl +:+ "@start" +:+ nl.

(** The data definition of a pending global. *)
Definition data_line (d : Variable_) : string :=
  let m := Metrics (Concrete (Var_Ty d)) in
  "data " +:+ fmt_s (Loc d) +:+ " = align " +:+ pretty (Align m)
    +:+ " { z " +:+ pretty (Size m) +:+ " }" +:+ nl.

End Vocabulary.

(** ** Further methods and their vocabulary *)

Section DeclareLocal.
Context `{TypeMethods}.

(** Modelled from the spec: [GenZero] (types.go), the zero-initializer of a
    type, is not part of the sources; [DeclareLocal] is defined over any
    implementation of it. *)
Context (GenZero : Typ → Operand → M unit).

Definition DeclareLocal (name : string) (ty : Typ) : M unit :=
  found ← gets (λ c, vars c !! name);
  match found with
  | Some _ => panic "Variable already exists"
  | None =>
      loc ← (λ c, let '(t, c) := Compiler_Temporary c in Ok t c);
      modify (λ c, set_vars
        (<[name := {| Loc := OTemporary loc; Var_Ty := ty |}]> (vars c)) c);;
      allocLocal loc ty;;
      GenZero ty (OTemporary loc)
  end.

End DeclareLocal.

(** [n] calls of [Temporary], with the temporaries they return. *)
Fixpoint Temporaries (n : nat) (c : Compiler) : list Temporary * Compiler :=
  match n with
  | 0 => ([], c)
  | S n =>
      let '(t, c) := Compiler_Temporary c in
      let '(ts, c) := Temporaries n c in
      (t :: ts, c)
  end.

(** [n] calls of [Block], with the blocks they return. *)
Fixpoint Blocks (n : nat) (c : Compiler) : list Block * Compiler :=
  match n with
  | 0 => ([], c)
  | S n =>
      let '(b, c) := Compiler_Block c in
      let '(bs, c) := Blocks n c in
      (b :: bs, c)
  end.

(** The maps of the namespaces on the stack exist, and no two namespaces of
    the stack share a map. *)
Definition store_wf (c : Compiler) : Prop :=
  (∀ n, n ∈ ns c → is_Some (varsH c !! NS_Vars n) ∧ is_Some (typsH c !! NS_Typs n)) ∧
  NoDup (map NS_Vars (ns c)) ∧ NoDup (map NS_Typs (ns c)).

(** A byte that [IRString.String] writes inside a quoted run. *)
Definition printable (ch : ascii) : bool :=
  ((32 <=? N_of_ascii ch) && (N_of_ascii ch <=? 126))%N.

(** * Properties *)

(** ** Strings *)

Lemma sapp_nil_l (s : string) : EmptyString +:+ s = s.
Proof. reflexivity. Qed.

Lemma sapp_cons (a : ascii) (s t : string) : String a s +:+ t = String a (s +:+ t).
Proof. reflexivity. Qed.

Lemma sapp_nil_r (s : string) : s +:+ EmptyString = s.
Proof. induction s as [|a s IH]; [done|]. by rewrite sapp_cons, IH. Qed.

Lemma sapp_assoc (s t u : string) : (s +:+ t) +:+ u = s +:+ (t +:+ u).
Proof. induction s as [|a s IH]; [done|]. by rewrite !sapp_cons, IH. Qed.

Lemma sapp_length (s t : string) :
  String.length (s +:+ t) = String.length s + String.length t.
Proof. induction s as [|a s IH]; [done|]. rewrite sapp_cons. simpl. by rewrite IH. Qed.

(** ** Dead code after ret *)

Lemma Insn_suppressed retVar retType opcode operands c :
  ret c = true → Insn retVar retType opcode operands c = c.
Proof. intros Hret. unfold Insn. by rewrite Hret. Qed.

Lemma Insn_emits retVar retType opcode operands c :
  ret c = false →
  Insn retVar retType opcode operands c
  = set_ret (bool_decide (opcode = "ret"))
      (Writef (Insn_line retVar retType opcode operands) c).
Proof.
  intros Hret. unfold Insn, Insn_line. rewrite Hret.
  by destruct (Temporary_IsZero retVar).
Qed.

Lemma CompositeType_loop_ret ident layout i rest c :
  ret (CompositeType_loop ident layout i rest c) = ret c ∧
  r (CompositeType_loop ident layout i rest c) = r c.
Proof.
  revert i. induction rest as [|l rest IH]; intros i; simpl; [done|].
  repeat case_bool_decide; simpl; [done..|]. apply IH.
Qed.

Lemma emit_suppressed c e :
  ret c = true → ret (emit c e) = true ∧ r (emit c e) = r c.
Proof.
  intros Hret. destruct e as [k| | |str|layout|start end_]; simpl; try done.
  - unfold Insn_call. by rewrite Insn_suppressed.
  - unfold Compiler_String. by destruct (strM c !! str).
  - destruct (CompositeType_loop_ret (Ident layout) layout 0 (comp c) c) as [-> ->]. done.
Qed.

Lemma emissions_suppressed (es : list Emission) c :
  ret c = true → ret (foldl emit c es) = true ∧ r (foldl emit c es) = r c.
Proof.
  revert c. induction es as [|e es IH]; intros c Hret; [done|].
  simpl. destruct (emit_suppressed c e Hret) as [Hret' Hr].
  destruct (IH _ Hret') as [-> ->]. done.
Qed.

(** C2: once [Insn] has emitted an instruction with opcode [ret] the flag is
    set; while it is set, any run of [Insn] calls, also mixed with the other
    calls of a lowering, leaves the buffers as they are and the flag set.
    [StartBlock] writes the label and clears the flag, and the [Insn] after
    it appends its line. *)
Theorem C2_ret_suppresses_until_StartBlock :
  (∀ c retVar retType operands,
     ret c = false →
     let c' := Insn retVar retType "ret" operands c in
     ret c' = true ∧
     codeW (r c') = codeW (r c) +:+ Insn_line retVar retType "ret" operands) ∧
  (∀ c retVar retType opcode operands,
     ret c = true → Insn retVar retType opcode operands c = c) ∧
  (∀ c (es : list Emission),
     ret c = true →
     ret (foldl emit c es) = true ∧
     codeW (r (foldl emit c es)) = codeW (r c) ∧
     typeW (r (foldl emit c es)) = typeW (r c)) ∧
  (∀ c block,
     ret (StartBlock block c) = false ∧
     codeW (r (StartBlock block c)) = codeW (r c) +:+ Block_Operand block +:+ nl) ∧
  (∀ c block retVar retType opcode operands,
     codeW (r (Insn retVar retType opcode operands (StartBlock block c)))
     = codeW (r (StartBlock block c)) +:+ Insn_line retVar retType opcode operands).
Proof.
  split; [|split; [|split; [|split]]].
  - intros c retVar retType operands Hret c'. subst c'.
    rewrite Insn_emits by done. done.
  - intros c retVar retType opcode operands Hret. by apply Insn_suppressed.
  - intros c es Hret. destruct (emissions_suppressed es c Hret) as [-> ->]. done.
  - intros c block. done.
  - intros c block retVar retType opcode operands.
    by rewrite Insn_emits.
Qed.

Lemma C2_ret_suppresses_until_StartBlock_witness :
  let c := Insn 0 "000" "ret" [OIRInteger "0"] NewCompiler in
  ret c = true ∧
  Insn 1 "w" "copy" [OIRInteger "7"] c = c ∧
  codeW (r (foldl emit c
    [ EmitTemporary;
      EmitInsn {| insn_retVar := 1; insn_retType := "w"; insn_opcode := "add";
                  insn_operands := [OIRInteger "1"; OIRInteger "2"] |} ]))
  = tab +:+ "ret 0" +:+ nl.
Proof.
  pose proof C2_ret_suppresses_until_StartBlock as (Hret & Hskip & Hdrop & _).
  destruct (Hret NewCompiler 0%N "000"%char [OIRInteger "0"] eq_refl) as [Hflag Hcode].
  split; [exact Hflag|]. split; [exact (Hskip _ 1%N "w"%char "copy" [OIRInteger "7"] Hflag)|].
  destruct (Hdrop _ [ EmitTemporary;
                      EmitInsn {| insn_retVar := 1%N; insn_retType := "w"%char;
                                  insn_opcode := "add";
                                  insn_operands := [OIRInteger "1"; OIRInteger "2"] |} ]
              Hflag) as (_ & -> & _).
  exact Hcode.
Defined.

(** ** Promotion of small parameter types *)

Lemma promote_cases (s : string) :
  (if bool_decide (s = "b") || bool_decide (s = "h") then "w" else s) = promote s.
Proof.
  unfold promote.
  destruct (decide (s = "b")) as [->|Hb]; [done|].
  destruct (decide (s = "h")) as [->|Hh]; [done|].
  rewrite !bool_decide_eq_false_2; [done|by intros [?|?]|done..].
Qed.

Lemma promote_cases' (s : string) :
  (if bool_decide (s = "h") || bool_decide (s = "b") then "w" else s) = promote s.
Proof. rewrite orb_comm. apply promote_cases. Qed.

Lemma promote_small (s : string) : s = "b" ∨ s = "h" → promote s = "w".
Proof. intros Hs. unfold promote. by rewrite bool_decide_eq_true_2. Qed.

Lemma promote_other (s : string) : s ≠ "b" → s ≠ "h" → promote s = s.
Proof. intros ??. unfold promote. by rewrite bool_decide_eq_false_2 by (by intros [?|?]). Qed.

Lemma CallOperand_args_prefixed render i args b :
  0 < i →
  CallOperand_args render i args b
  = b +:+ prefixed ", "
            (map (λ a, promote (Arg_Ty a) +:+ " " +:+ render (Arg_Op a)) args).
Proof.
  revert i b. induction args as [|a args IH]; intros i b Hi; simpl.
  { by rewrite sapp_nil_r. }
  rewrite (bool_decide_eq_true_2 (0 < i)) by done.
  rewrite IH by lia. rewrite <-promote_cases'.
  destruct (bool_decide (Arg_Ty a = "h") || bool_decide (Arg_Ty a = "b"));
    by rewrite !sapp_assoc.
Qed.

Lemma CallOperand_args_join render args b :
  CallOperand_args render 0 args b
  = b +:+ join ", "
            (map (λ a, promote (Arg_Ty a) +:+ " " +:+ render (Arg_Op a)) args).
Proof.
  destruct args as [|a args]; simpl.
  { by rewrite sapp_nil_r. }
  rewrite CallOperand_args_prefixed by lia. rewrite <-promote_cases'.
  destruct (bool_decide (Arg_Ty a = "h") || bool_decide (Arg_Ty a = "b"));
    by rewrite !sapp_assoc.
Qed.

Section Promotion.
Context `{TypeMethods}.

Lemma CompositeType_loop_frame ident layout i rest c :
  let c' := CompositeType_loop ident layout i rest c in
  r c' = r c ∧ temp c' = temp c ∧ ns c' = ns c ∧ ret c' = ret c ∧ vars c' = vars c.
Proof.
  revert i. induction rest as [|l rest IH]; intros i; simpl; [done|].
  repeat case_bool_decide; simpl; [done..|]. apply IH.
Qed.

Lemma IRTypeName_frame ty c :
  (IRTypeName ty c).1 = IRTypeName_text ty ∧
  r (IRTypeName ty c).2 = r c ∧ temp (IRTypeName ty c).2 = temp c ∧
  ns (IRTypeName ty c).2 = ns c ∧ ret (IRTypeName ty c).2 = ret c ∧
  vars (IRTypeName ty c).2 = vars c.
Proof.
  unfold IRTypeName, IRTypeName_text. destruct (IRType ty) as [letter|layout]; [done|].
  split; [done|]. apply (CompositeType_loop_frame (Ident layout) layout 0 (comp c) c).
Qed.

Lemma StartFunction_params_prefixed params i pbuild ptemps c :
  0 < i → (i + length params ≤ length ptemps)%nat →
  ∃ ptemps' c',
    StartFunction_params i params pbuild ptemps c
    = (pbuild +:+ prefixed ", "
         (zip_with param_text params (fresh_temps (temp c) (length params))),
       ptemps', c') ∧
    r c' = r c ∧ ns c' = ns c.
Proof.
  revert i pbuild ptemps c.
  induction params as [|p params IH]; intros i pbuild ptemps c Hi Hlen; simpl.
  { eexists _, _. by rewrite sapp_nil_r. }
  simpl in Hlen.
  destruct (IRTypeName_frame (Param_Ty p) c) as (Hn & Hr & Ht & Hns & _).
  destruct (IRTypeName (Param_Ty p) c) as [ptype c1] eqn:Hty. simpl in *. subst ptype.
  rewrite (bool_decide_eq_true_2 (0 < i)) by done.
  rewrite list_lookup_total_insert_eq by lia.
  edestruct (IH (S i)) as (ptemps' & c' & -> & Hr' & Hns'); [lia| |].
  { rewrite length_insert. lia. }
  eexists _, _. split; [|split].
  - simpl. rewrite Ht. rewrite promote_cases. unfold param_text at 2.
    by rewrite !sapp_assoc.
  - by rewrite Hr'.
  - by rewrite Hns'.
Qed.

Lemma StartFunction_params_join params c :
  ∃ ptemps' c',
    StartFunction_params 0 params EmptyString (replicate (length params) 0%N) c
    = (join ", " (zip_with param_text params (fresh_temps (temp c) (length params))),
       ptemps', c') ∧
    r c' = r c ∧ ns c' = ns c.
Proof.
  destruct params as [|p params]; simpl.
  { by eexists _, _. }
  destruct (IRTypeName_frame (Param_Ty p) c) as (Hn & Hr & Ht & Hns & _).
  destruct (IRTypeName (Param_Ty p) c) as [ptype c1] eqn:Hty. simpl in *. subst ptype.
  edestruct (StartFunction_params_prefixed params 1) as (ptemps' & c' & -> & Hr' & Hns');
    [lia| |].
  { simpl. rewrite length_replicate. lia. }
  eexists _, _. split; [|split].
  - simpl. rewrite Ht. rewrite promote_cases. unfold param_text at 2.
    by rewrite !sapp_assoc.
  - by rewrite Hr'.
  - by rewrite Hns'.
Qed.

Lemma allocLocal_appends loc ty c :
  ∃ rest, codeW (r (res_state (allocLocal loc ty c))) = codeW (r c) +:+ rest.
Proof.
  unfold allocLocal, modify.
  repeat case_bool_decide; simpl;
    try (destruct (ret c) eqn:Hret;
         [rewrite Insn_suppressed by done; exists EmptyString; by rewrite sapp_nil_r
         |rewrite Insn_emits by done; by eexists]).
  exists EmptyString. by rewrite sapp_nil_r.
Qed.

Lemma StartFunction_locals_appends params i ptemps c :
  ∃ rest,
    codeW (r (res_state (StartFunction_locals i params ptemps c))) = codeW (r c) +:+ rest.
Proof.
  revert i c. induction params as [|p params IH]; intros i c; simpl.
  { exists EmptyString. by rewrite sapp_nil_r. }
  unfold mbind, M_bind, modify, mret, M_ret. simpl.
  case_bool_decide.
  - destruct (allocLocal_appends (uint_incr (temp c)) (Param_Ty p)
                (set_temp (uint_incr (temp c)) c)) as [rest1 Hrest1].
    destruct (allocLocal _ _ _) as [[] c1|v c1]; simpl in *; [|by eexists].
    destruct (IRTypeName_frame (Param_Ty p) c1) as (_ & Hr & _).
    destruct (IRTypeName (Param_Ty p) c1) as [name c2]; simpl in *.
    match goal with |- context [StartFunction_locals _ _ _ ?c3] =>
      destruct (IH (S i) c3) as [rest2 ->] end.
    simpl.
    destruct (ret c2) eqn:Hret.
    + rewrite Insn_suppressed by done. rewrite Hr, Hrest1.
      eexists. by rewrite sapp_assoc.
    + rewrite Insn_emits by done. simpl. rewrite Hr, Hrest1.
      eexists. by rewrite !sapp_assoc.
  - match goal with |- context [StartFunction_locals _ _ _ ?c3] =>
      destruct (IH (S i) c3) as [rest2 ->] end.
    by eexists.
Qed.

End Promotion.

Lemma header_retType (retType : string) :
  let t := if bool_decide (retType = "b") || bool_decide (retType = "h")
           then "w" else retType in
  (if bool_decide (t ≠ EmptyString) then t +:+ " " else t)
  = (if bool_decide (retType = EmptyString) then EmptyString
     else promote retType +:+ " ").
Proof.
  simpl. rewrite promote_cases.
  destruct (decide (retType = EmptyString)) as [->|Hne]; [done|].
  rewrite (bool_decide_eq_false_2 (retType = EmptyString)) by done.
  rewrite bool_decide_eq_true_2; [done|].
  unfold promote. by case_bool_decide.
Qed.

(** C3: a call operand prints each argument type through [promote], and the
    header written by [StartFunction] prints the type of every parameter and
    the return type through [promote]: [b] and [h] come out as [w], every
    other letter as it is. *)
Theorem C3_small_types_print_as_w `{TypeMethods} :
  (∀ s, (s = "b" ∨ s = "h" → promote s = "w") ∧
        (s ≠ "b" → s ≠ "h" → promote s = s)) ∧
  (∀ var func args,
     Operand_Operand (OCallOperand var func args)
     = Operand_Operand func +:+ "(" +:+ join ", " (map call_arg_text args)
         +:+ (if var then ", ..." else EmptyString) +:+ ")") ∧
  (∀ c export name params retType cur,
     last (ns c) = Some cur →
     ∃ rest,
       codeW (r (res_state (StartFunction export name params retType c)))
       = codeW (r c)
           +:+ header_text export retType (NS_Name cur +:+ name) params
                 (fresh_temps (temp c) (length params))
           +:+ rest).
Proof.
  split; [|split].
  - intros s. split; [apply promote_small|apply promote_other].
  - intros var func args. simpl. rewrite CallOperand_args_join.
    destruct var; by rewrite !sapp_assoc, ?sapp_nil_r.
  - intros c export name params retType cur Hcur. unfold StartFunction.
    destruct (StartFunction_params_join params c) as (ptemps & c1 & -> & Hr & Hns).
    unfold NS. rewrite Hns, Hcur.
    rewrite header_retType.
    match goal with |- context [StartFunction_locals _ _ _ ?c3] =>
      destruct (StartFunction_locals_appends params 0 ptemps c3) as [rest ->] end.
    exists rest. simpl. rewrite Hr. unfold header_text.
    by rewrite !sapp_assoc.
Qed.

Lemma C3_small_types_print_as_w_witness :
  ∃ rest,
    codeW (r (res_state (StartFunction (H := SpecTypes.methods) false "i8"
      [ {| Param_Name := "i"; Param_Ty := TypeI8 |};
        {| Param_Name := "n"; Param_Ty := TypeI16 |};
        {| Param_Name := "p"; Param_Ty := PointerType None |} ] "b" NewCompiler)))
    = "function w $i8(w %t1, w %t2, l %t3) {" +:+ nl +:+ "@start" +:+ nl +:+ rest.
Proof.
  destruct (C3_small_types_print_as_w (H := SpecTypes.methods)) as (_ & _ & Hhead).
  destruct (Hhead NewCompiler false "i8"
    [ {| Param_Name := "i"; Param_Ty := TypeI8 |};
      {| Param_Name := "n"; Param_Ty := TypeI16 |};
      {| Param_Name := "p"; Param_Ty := PointerType None |} ] "b"
    {| NS_Name := EmptyString; NS_Vars := 0; NS_Typs := 0 |} eq_refl) as [rest Hrest].
  exists rest. exact Hrest.
Defined.

(** ** What Finish writes *)

Lemma sconcat_app (l k : list string) : sconcat (l ++ k) = sconcat l +:+ sconcat k.
Proof. induction l as [|x l IH]; [done|]. simpl. by rewrite IH, sapp_assoc. Qed.

Section FinishText.
Context `{TypeMethods}.

Lemma GenType_fold (l : list CompositeLayout) c :
  let c' := foldl (λ c layout, GenType layout c) c l in
  typeW (r c') = foldl (λ w layout, GenType_text layout w) (typeW (r c)) l ∧
  codeW (r c') = codeW (r c) ∧ strs c' = strs c ∧ data c' = data c ∧
  comp c' = comp c.
Proof.
  revert c. induction l as [|layout l IH]; intros c; [done|].
  simpl. destruct (IH (GenType layout c)) as (-> & -> & -> & -> & ->). done.
Qed.

Lemma Finish_strs_code (l : list string) i c :
  let c' := Finish_strs i l c in
  codeW (r c') = codeW (r c) +:+ sconcat (imap (λ j, str_line (i + j)) l) ∧
  typeW (r c') = typeW (r c) ∧ data c' = data c ∧ strs c' = strs c ∧
  comp c' = comp c.
Proof.
  revert i c. induction l as [|str l IH]; intros i c; simpl.
  { by rewrite sapp_nil_r. }
  fold (str_line i str).
  destruct (IH (S i) (Writef (str_line i str) c)) as (-> & -> & -> & -> & ->).
  simpl. rewrite Nat.add_0_r, sapp_assoc.
  split; [|done]. do 3 f_equal. apply imap_ext. intros j x _. simpl.
  f_equal. lia.
Qed.

Lemma Finish_data_fold (l : list Variable_) c :
  let c' := foldl Finish_data c l in
  codeW (r c') = codeW (r c) +:+ sconcat (map data_line l) ∧
  typeW (r c') = typeW (r c) ∧ strs c' = strs c ∧ data c' = data c ∧
  comp c' = comp c.
Proof.
  revert c. induction l as [|d l IH]; intros c; simpl.
  { by rewrite sapp_nil_r. }
  destruct (IH (Finish_data c d)) as (-> & -> & -> & -> & ->).
  simpl. by rewrite sapp_assoc.
Qed.

Lemma Finish_text c :
  typeW (r (Finish c))
  = foldl (λ w layout, GenType_text layout w) (typeW (r c)) (comp c) ∧
  codeW (r (Finish c))
  = codeW (r c) +:+ sconcat (str_lines (strs c)) +:+ sconcat (map data_line (data c)) ∧
  strs (Finish c) = strs c ∧ data (Finish c) = data c ∧ comp (Finish c) = comp c.
Proof.
  unfold Finish.
  destruct (GenType_fold (comp c) c) as (Ht1 & Hc1 & Hs1 & Hd1 & Hp1).
  set (c1 := foldl (λ c layout, GenType layout c) c (comp c)) in *.
  destruct (Finish_strs_code (strs c1) 0 c1) as (Hc2 & Ht2 & Hd2 & Hs2 & Hp2).
  set (c2 := Finish_strs 0 (strs c1) c1) in *.
  destruct (Finish_data_fold (data c2) c2) as (Hc3 & Ht3 & Hs3 & Hd3 & Hp3).
  rewrite Hc3, Ht3, Hs3, Hd3, Hp3, Hc2, Ht2, Hd2, Hs2, Hp2, Hc1, Ht1, Hs1, Hd1, Hp1.
  by rewrite sapp_assoc.
Qed.

End FinishText.

(** ** The string pool *)

Lemma strpool_wf_new : strpool_wf NewCompiler.
Proof. intros s i. simpl. by rewrite lookup_empty, lookup_nil. Qed.

Lemma strpool_wf_NoDup c : strpool_wf c → NoDup (strs c).
Proof.
  intros Hwf. apply NoDup_alt. intros i j s Hi Hj.
  apply Hwf in Hi, Hj. congruence.
Qed.

Lemma String_known s i c :
  strM c !! s = Some i → Compiler_String s c = ("str" +:+ pretty i, c).
Proof. intros Hs. unfold Compiler_String. by rewrite Hs. Qed.

Lemma String_fresh s c :
  strM c !! s = None →
  (Compiler_String s c).1 = "str" +:+ pretty (length (strs c)) ∧
  strs (Compiler_String s c).2 = strs c ++ [s] ∧
  strM (Compiler_String s c).2 = <[s := length (strs c)]> (strM c).
Proof. intros Hs. unfold Compiler_String. by rewrite Hs. Qed.

Lemma String_wf s c : strpool_wf c → strpool_wf (Compiler_String s c).2.
Proof.
  intros Hwf. destruct (strM c !! s) as [i|] eqn:Hs.
  { by rewrite (String_known s i c Hs). }
  destruct (String_fresh s c Hs) as (_ & Hstrs & HstrM).
  intros s' j. rewrite Hstrs, HstrM.
  destruct (decide (s = s')) as [<-|Hne].
  - rewrite lookup_insert_eq. split.
    + intros [= <-]. by rewrite lookup_app_r, Nat.sub_diag.
    + intros Hj. f_equal.
      destruct (decide (j < length (strs c))) as [Hlt|Hge].
      * rewrite lookup_app_l in Hj by done. apply Hwf in Hj. congruence.
      * apply lookup_lt_Some in Hj. rewrite length_app in Hj. simpl in Hj. lia.
  - rewrite lookup_insert_ne by done. rewrite (Hwf s' j). split.
    + intros Hj. by apply lookup_app_l_Some.
    + intros Hj. apply lookup_app_Some in Hj as [Hj|[Hge Hj]]; [done|].
      apply list_lookup_singleton_Some in Hj as [_ ?]. done.
Qed.

Lemma String_keeps s s' i c :
  strpool_wf c → strM c !! s = Some i → strM (Compiler_String s' c).2 !! s = Some i.
Proof.
  intros Hwf Hs. destruct (strM c !! s') as [j|] eqn:Hs'.
  { by rewrite (String_known s' j c Hs'). }
  destruct (String_fresh s' c Hs') as (_ & _ & ->).
  rewrite lookup_insert_ne; [done|]. congruence.
Qed.

Lemma intern_all_wf ss c : strpool_wf c → strpool_wf (intern_all ss c).
Proof.
  revert c. induction ss as [|s ss IH]; intros c Hwf; [done|].
  simpl. apply IH. by apply String_wf.
Qed.

Lemma intern_all_keeps ss s i c :
  strpool_wf c → strM c !! s = Some i → strM (intern_all ss c) !! s = Some i.
Proof.
  revert c. induction ss as [|s' ss IH]; intros c Hwf Hs; [done|].
  simpl. apply IH; [by apply String_wf|by apply String_keeps].
Qed.

Lemma String_interns s c :
  strpool_wf c → ∃ i, strM (Compiler_String s c).2 !! s = Some i ∧
                      (Compiler_String s c).1 = "str" +:+ pretty i.
Proof.
  intros Hwf. destruct (strM c !! s) as [i|] eqn:Hs.
  { exists i. by rewrite (String_known s i c Hs). }
  destruct (String_fresh s c Hs) as (-> & _ & ->).
  exists (length (strs c)). by rewrite lookup_insert_eq.
Qed.

Lemma String_elements s c :
  strpool_wf c →
  list_to_set (C := gset string) (strs (Compiler_String s c).2)
  = list_to_set (strs c) ∪ {[ s ]}.
Proof.
  intros Hwf. destruct (strM c !! s) as [i|] eqn:Hs.
  - rewrite (String_known s i c Hs). simpl. apply Hwf in Hs.
    apply list_elem_of_lookup_2 in Hs. set_solver.
  - destruct (String_fresh s c Hs) as (_ & -> & _).
    rewrite list_to_set_app_L. set_solver.
Qed.

Lemma intern_all_elements ss c :
  strpool_wf c →
  list_to_set (C := gset string) (strs (intern_all ss c))
  = list_to_set (strs c ++ ss).
Proof.
  revert c. induction ss as [|s ss IH]; intros c Hwf; simpl.
  { by rewrite app_nil_r. }
  rewrite IH by (by apply String_wf). rewrite !list_to_set_app_L.
  rewrite String_elements by done. set_solver.
Qed.

Lemma strpool_size c :
  strpool_wf c → length (strs c) = size (list_to_set (C := gset string) (strs c)).
Proof.
  intros Hwf. rewrite size_list_to_set; [done|]. by apply strpool_wf_NoDup.
Qed.

Lemma strpool_fresh s c : strpool_wf c → s ∉ strs c → strM c !! s = None.
Proof.
  intros Hwf Hs. destruct (strM c !! s) as [i|] eqn:Hi; [|done].
  apply Hwf in Hi. apply list_elem_of_lookup_2 in Hi. done.
Qed.


(** ** The composite pool *)

Lemma strings_Compare_eq a b : strings_Compare a b = 0%Z ↔ a = b.
Proof.
  unfold strings_Compare. split.
  - destruct (String.compare a b) eqn:Hc; [|done..].
    intros _. by apply String.compare_eq_iff.
  - intros ->. assert (String.compare b b = Eq) as ->; [|done].
    induction b as [|x b IH]; [done|]. simpl.
    unfold Ascii.compare. by rewrite N.compare_refl.
Qed.

Lemma strings_Compare_lt a b : strings_Compare a b = (-1)%Z ↔ String.compare a b = Lt.
Proof.
  unfold strings_Compare.
  destruct (String.compare a b); split; intros; (done || lia).
Qed.

Lemma strings_Compare_gt a b : strings_Compare a b = 1%Z ↔ String.compare b a = Lt.
Proof.
  unfold strings_Compare. rewrite (String.compare_antisym b a).
  destruct (String.compare a b); simpl; split; intros; (done || lia).
Qed.

Lemma strings_Compare_cases a b :
  strings_Compare a b = 0%Z ∨ strings_Compare a b = 1%Z ∨ strings_Compare a b = (-1)%Z.
Proof. unfold strings_Compare. destruct (String.compare a b); auto. Qed.

Lemma compare_lt_trans a b c :
  String.compare a b = Lt → String.compare b c = Lt → String.compare a c = Lt.
Proof.
  intros Hab Hbc.
  assert (String.le a c) as Hac.
  { trans b; unfold String.le, String.leb; [by rewrite Hab|by rewrite Hbc]. }
  unfold String.le, String.leb in Hac.
  destruct (String.compare a c) eqn:Hc; [|done..].
  apply String.compare_eq_iff in Hc as ->.
  rewrite String.compare_antisym, Hab in Hbc. done.
Qed.

#[local] Instance ident_lt_trans : Transitive ident_lt.
Proof.
  intros a b c. unfold ident_lt. rewrite !strings_Compare_lt. apply compare_lt_trans.
Qed.

Lemma ident_lt_ne a b : ident_lt a b → Ident a ≠ Ident b.
Proof.
  unfold ident_lt. intros Hlt Heq. apply strings_Compare_eq in Heq. lia.
Qed.

Lemma slice_insert {A} (pre : list A) (x : A) (rest : list A) (z y : A) :
  <[length pre := y]> (slice_copy (length pre + 1) (length pre) ((pre ++ x :: rest) ++ [z]))
  = pre ++ y :: x :: rest.
Proof.
  unfold slice_copy.
  assert (length ((pre ++ x :: rest) ++ [z]) = length pre + S (S (length rest))) as Hlen.
  { rewrite !length_app. simpl. lia. }
  rewrite Hlen.
  replace ((length pre + S (S (length rest)) - (length pre + 1))
             `min` (length pre + S (S (length rest)) - length pre))
    with (S (length rest)) by lia.
  assert (take (length pre + 1) ((pre ++ x :: rest) ++ [z]) = pre ++ [x]) as ->.
  { replace ((pre ++ x :: rest) ++ [z]) with ((pre ++ [x]) ++ (rest ++ [z]))
      by (by rewrite <-!(assoc_L (++))).
    apply take_app_length'. rewrite length_app. simpl. lia. }
  assert (drop (length pre) ((pre ++ x :: rest) ++ [z]) = x :: rest ++ [z]) as ->.
  { rewrite <-(assoc_L (++)). by rewrite drop_app_length. }
  assert (take (S (length rest)) (x :: rest ++ [z]) = x :: rest) as ->.
  { simpl. by rewrite take_app_length. }
  rewrite drop_ge by lia. rewrite app_nil_r.
  rewrite <-(assoc_L (++)).
  replace (length pre) with (length pre + 0) at 1 by lia.
  rewrite insert_app_r. done.
Qed.

Lemma CompositeType_loop_comp layout pre rest c :
  comp c = pre ++ rest →
  comp (CompositeType_loop (Ident layout) layout (length pre) rest c)
  = pre ++ insert_sorted layout rest.
Proof.
  revert pre c. induction rest as [|x rest IH]; intros pre c Hc; simpl.
  { by rewrite Hc, app_nil_r. }
  destruct (String.compare (Ident x) (Ident layout)) eqn:Hcmp.
  - rewrite bool_decide_eq_true_2; [done|].
    apply strings_Compare_eq. by apply String.compare_eq_iff.
  - assert (strings_Compare (Ident x) (Ident layout) = (-1)%Z) as Hlt
      by (by apply strings_Compare_lt).
    rewrite !bool_decide_eq_false_2 by lia.
    replace (S (length pre)) with (length (pre ++ [x]))
      by (rewrite length_app; simpl; lia).
    rewrite IH; [by rewrite <-(assoc_L (++))|].
    by rewrite Hc, <-(assoc_L (++)).
  - assert (strings_Compare (Ident x) (Ident layout) = 1%Z) as Hgt.
    { apply strings_Compare_gt. by rewrite String.compare_antisym, Hcmp. }
    rewrite bool_decide_eq_false_2 by lia.
    rewrite bool_decide_eq_true_2 by done.
    simpl. rewrite Hc. apply slice_insert.
Qed.

Lemma CompositeType_comp layout c :
  comp (CompositeType layout c).2 = insert_sorted layout (comp c).
Proof. apply (CompositeType_loop_comp layout [] (comp c) c). done. Qed.

Lemma insert_sorted_elem_of layout l y :
  y ∈ insert_sorted layout l → y = layout ∨ y ∈ l.
Proof.
  induction l as [|x l IH]; simpl.
  { intros ->%list_elem_of_singleton. by left. }
  destruct (String.compare (Ident x) (Ident layout)); [by right| |].
  - intros [->|Hy]%elem_of_cons; [right; by left|].
    destruct (IH Hy) as [->|?]; [by left|right; by right].
  - intros [->|Hy]%elem_of_cons; [by left|by right].
Qed.

Lemma insert_sorted_sorted layout l :
  StronglySorted ident_lt l → StronglySorted ident_lt (insert_sorted layout l).
Proof.
  induction l as [|x l IH]; simpl; intros Hs.
  { repeat constructor. }
  apply StronglySorted_cons in Hs as [Hx Hl].
  destruct (String.compare (Ident x) (Ident layout)) eqn:Hcmp.
  - by apply StronglySorted_cons.
  - apply StronglySorted_cons. split; [|by apply IH].
    apply Forall_forall. intros y [->|Hy]%insert_sorted_elem_of.
    + by apply strings_Compare_lt.
    + by eapply Forall_forall in Hx.
  - assert (ident_lt layout x) as Hlx.
    { apply strings_Compare_lt. by rewrite String.compare_antisym, Hcmp. }
    apply StronglySorted_cons. split; [|by apply StronglySorted_cons].
    constructor; [done|]. eapply Forall_impl; [exact Hx|].
    intros y Hy. by trans x.
Qed.

Lemma insert_sorted_found layout l l0 :
  StronglySorted ident_lt l → l0 ∈ l → Ident l0 = Ident layout →
  insert_sorted layout l = l.
Proof.
  induction l as [|x l IH]; simpl; intros Hs Hin Heq.
  { by apply elem_of_nil in Hin. }
  apply StronglySorted_cons in Hs as [Hx Hl].
  destruct (String.compare (Ident x) (Ident layout)) eqn:Hcmp; [done| |].
  - f_equal. apply elem_of_cons in Hin as [->|Hin]; [|by apply IH].
    rewrite Heq in Hcmp. apply strings_Compare_lt in Hcmp.
    pose proof (proj2 (strings_Compare_eq (Ident layout) (Ident layout)) eq_refl). lia.
  - exfalso. apply elem_of_cons in Hin as [->|Hin].
    + rewrite Heq in Hcmp.
      pose proof (proj2 (strings_Compare_eq (Ident layout) (Ident layout)) eq_refl) as Hr.
      unfold strings_Compare in Hr. by rewrite Hcmp in Hr.
    + eapply Forall_forall in Hx; [|done]. unfold ident_lt in Hx.
      rewrite Heq in Hx. apply strings_Compare_lt in Hx. congruence.
Qed.

Lemma insert_sorted_new layout l :
  (∀ l0, l0 ∈ l → Ident l0 ≠ Ident layout) →
  ∃ pre post, l = pre ++ post ∧ insert_sorted layout l = pre ++ layout :: post.
Proof.
  induction l as [|x l IH]; simpl; intros Hnew.
  { by exists [], []. }
  destruct (String.compare (Ident x) (Ident layout)) eqn:Hcmp.
  - apply String.compare_eq_iff in Hcmp. destruct (Hnew x); [by left|done].
  - destruct IH as (pre & post & -> & ->).
    { intros l0 Hl0. apply Hnew. by right. }
    by exists (x :: pre), post.
  - by exists [], (x :: l).
Qed.

Lemma sorted_NoDup_Ident l : StronglySorted ident_lt l → NoDup (map Ident l).
Proof.
  induction l as [|x l IH]; simpl; intros Hs; [constructor|].
  apply StronglySorted_cons in Hs as [Hx Hl].
  constructor; [|by apply IH].
  intros (y & Heq & Hy)%list_elem_of_fmap.
  eapply Forall_forall in Hx; [|done]. by apply ident_lt_ne in Hx.
Qed.

Lemma GenType_loop_app i l w :
  GenType_loop i l w = w +:+ GenType_loop i l EmptyString.
Proof.
  revert i w. induction l as [|e l IH]; intros i w; simpl.
  { by rewrite sapp_nil_r. }
  rewrite IH. symmetry. rewrite IH. symmetry.
  repeat case_bool_decide; by rewrite ?sapp_assoc.
Qed.

Lemma GenType_text_app l w : GenType_text l w = w +:+ GenType_decl l.
Proof.
  unfold GenType_decl, GenType_text.
  rewrite GenType_loop_app. symmetry. rewrite GenType_loop_app.
  by rewrite !sapp_assoc.
Qed.

Lemma GenType_text_fold (l : list CompositeLayout) w :
  foldl (λ w layout, GenType_text layout w) w l = w +:+ sconcat (map GenType_decl l).
Proof.
  revert w. induction l as [|x l IH]; intros w; simpl.
  { by rewrite sapp_nil_r. }
  by rewrite IH, GenType_text_app, sapp_assoc.
Qed.

Lemma insert_sorted_has layout l : Ident layout ∈ map Ident (insert_sorted layout l).
Proof.
  induction l as [|x l IH]; simpl; [by left|].
  destruct (String.compare (Ident x) (Ident layout)) eqn:Hcmp; simpl.
  - apply String.compare_eq_iff in Hcmp as ->. by left.
  - by right.
  - by left.
Qed.

Lemma comp_sorted_new : comp_sorted NewCompiler.
Proof. constructor. Qed.

Lemma CompositeType_sorted layout c :
  comp_sorted c → comp_sorted (CompositeType layout c).2.
Proof.
  unfold comp_sorted. rewrite CompositeType_comp. apply insert_sorted_sorted.
Qed.


(** ** The pools in every reachable state *)

Ltac unfold_M :=
  unfold mbind, M_bind, mret, M_ret, gets, modify, panic, throw in *.

Lemma pools_inv_new : pools_inv NewCompiler.
Proof. split; [apply strpool_wf_new|apply comp_sorted_new]. Qed.

Lemma pools_inv_same c c' : same_pools c c' → pools_inv c → pools_inv c'.
Proof.
  intros (Hs & Hm & Hc) [Hwf Hsorted]. split.
  - intros s i. rewrite Hs, Hm. apply Hwf.
  - unfold comp_sorted. by rewrite Hc.
Qed.

Lemma same_pools_refl c : same_pools c c.
Proof. done. Qed.

Lemma same_pools_trans c1 c2 c3 : same_pools c1 c2 → same_pools c2 c3 → same_pools c1 c3.
Proof. intros (? & ? & ?) (? & ? & ?). repeat split; congruence. Qed.

Lemma Insn_same_pools retVar retType opcode operands c :
  same_pools c (Insn retVar retType opcode operands c).
Proof. unfold Insn. destruct (ret c); [done|]. by destruct (Temporary_IsZero retVar). Qed.

Lemma CompositeType_loop_strs ident layout i rest c :
  strs (CompositeType_loop ident layout i rest c) = strs c ∧
  strM (CompositeType_loop ident layout i rest c) = strM c.
Proof.
  revert i. induction rest as [|l rest IH]; intros i; simpl; [done|].
  repeat case_bool_decide; simpl; [done..|]. apply IH.
Qed.

Lemma CompositeType_inv layout c : pools_inv c → pools_inv (CompositeType layout c).2.
Proof.
  intros [Hwf Hsorted]. split; [|by apply CompositeType_sorted].
  destruct (CompositeType_loop_strs (Ident layout) layout 0 (comp c) c) as [Hs Hm].
  intros s i. simpl. rewrite Hs, Hm. apply Hwf.
Qed.

Lemma String_inv str c : pools_inv c → pools_inv (Compiler_String str c).2.
Proof.
  intros [Hwf Hsorted]. split; [by apply String_wf|].
  unfold Compiler_String. by destruct (strM c !! str).
Qed.

Lemma NS_state c : res_state (NS c) = c.
Proof. unfold NS. by destruct (last (ns c)). Qed.

Lemma Vars_store_same_pools a name ty c : same_pools c (res_state (Vars_store a name ty c)).
Proof. unfold Vars_store. by destruct (varsH c !! a). Qed.

Lemma StartNamespace_same_pools name c : same_pools c (res_state (StartNamespace name c)).
Proof.
  unfold StartNamespace. unfold_M. unfold NS.
  destruct (last (ns c)) as [cur|]; [|done]. simpl.
  unfold Vars_store. simpl.
  by destruct (_ !! NS_Vars cur).
Qed.

Lemma EndNamespace_same_pools c : same_pools c (res_state (EndNamespace c)).
Proof.
  unfold EndNamespace. destruct (ns c); [done|]. by case_bool_decide.
Qed.

Lemma DeclareGlobal_same_pools extern name ty c :
  same_pools c (res_state (DeclareGlobal extern name ty c)).
Proof.
  unfold DeclareGlobal. unfold_M. unfold NS.
  destruct (last (ns c)) as [cur|]; [|done]. simpl.
  destruct (Vars_load (NS_Vars cur) name c); [done|].
  unfold Vars_store. destruct (varsH c !! NS_Vars cur); [|done].
  by destruct extern.
Qed.

Lemma nsVar_state i name c : res_state (nsVar i name c) = c.
Proof.
  unfold nsVar. case_bool_decide; [|done].
  destruct (ns c !! Z.to_nat i) as [n|]; [|done].
  by destruct (Vars_load (NS_Vars n) name c).
Qed.

Lemma Variable_state name c : res_state (Compiler_Variable name c) = c.
Proof.
  unfold Compiler_Variable. unfold_M.
  destruct (vars c !! name); [done|].
  pose proof (nsVar_state (Z.of_nat (length (ns c)) - 1) name c) as H1.
  destruct (nsVar (Z.of_nat (length (ns c)) - 1) name c) as [[v|] c1|v c1];
    simpl in H1; subst c1; [done| |done].
  pose proof (nsVar_state 0 name c) as H2.
  destruct (nsVar 0 name c) as [[v|] c1|v c1]; simpl in H2; by subst c1.
Qed.

Section Reachable.
Context `{TypeMethods}.

Lemma IRTypeName_inv ty c : pools_inv c → pools_inv (IRTypeName ty c).2.
Proof.
  unfold IRTypeName. destruct (IRType ty) as [letter|layout]; [done|].
  apply CompositeType_inv.
Qed.

Lemma allocLocal_same_pools loc ty c : same_pools c (res_state (allocLocal loc ty c)).
Proof.
  unfold allocLocal. unfold_M.
  repeat case_bool_decide; simpl; try apply Insn_same_pools. done.
Qed.

Lemma StartFunction_params_inv params i pbuild ptemps c :
  pools_inv c → pools_inv (StartFunction_params i params pbuild ptemps c).2.
Proof.
  revert i pbuild ptemps c.
  induction params as [|p params IH]; intros i pbuild ptemps c Hinv; [done|].
  simpl. pose proof (IRTypeName_inv (Param_Ty p) c Hinv) as Hinv1.
  destruct (IRTypeName (Param_Ty p) c) as [ptype c1]. simpl in *.
  apply IH. by eapply pools_inv_same; [|exact Hinv1].
Qed.

Lemma StartFunction_locals_inv params i ptemps c :
  pools_inv c → pools_inv (res_state (StartFunction_locals i params ptemps c)).
Proof.
  revert i c. induction params as [|p params IH]; intros i c Hinv; [done|].
  simpl. unfold_M. simpl. case_bool_decide.
  - pose proof (allocLocal_same_pools (uint_incr (temp c)) (Param_Ty p)
                  (set_temp (uint_incr (temp c)) c)) as Hsame.
    destruct (allocLocal _ _ _) as [[] c1|v c1]; simpl in *.
    + assert (pools_inv c1) as Hinv1 by (by eapply pools_inv_same; [exact Hsame|]).
      pose proof (IRTypeName_inv (Param_Ty p) c1 Hinv1) as Hinv2.
      destruct (IRTypeName (Param_Ty p) c1) as [name c2]. simpl in *.
      apply IH. eapply pools_inv_same; [|exact Hinv2].
      eapply same_pools_trans; [apply Insn_same_pools|done].
    + by eapply pools_inv_same; [exact Hsame|].
  - apply IH. by eapply pools_inv_same; [|exact Hinv].
Qed.

Lemma StartFunction_inv export name params retType c :
  pools_inv c → pools_inv (res_state (StartFunction export name params retType c)).
Proof.
  intros Hinv. unfold StartFunction.
  pose proof (StartFunction_params_inv params 0 EmptyString
                (replicate (length params) 0%N) c Hinv) as Hinv1.
  destruct (StartFunction_params 0 params EmptyString _ c) as [[pbuild ptemps] c1].
  simpl in Hinv1. pose proof (NS_state c1) as Hns.
  destruct (NS c1) as [cur c2|v c2]; simpl in Hns; subst c2; [|done].
  apply StartFunction_locals_inv. by eapply pools_inv_same; [|exact Hinv1].
Qed.

Lemma CallExpr_switch_state t c : res_state (CallExpr_switch t c) = c.
Proof. unfold CallExpr_switch. by destruct t as [[| | | | | | | | | | |[[]|]| | | | | | |]|]. Qed.

Lemma BinaryExpr_result_state ltyp rtyp c : res_state (BinaryExpr_result ltyp rtyp c) = c.
Proof.
  unfold BinaryExpr_result. unfold_M.
  destruct (Compatible ltyp rtyp); simpl; [|done].
  destruct ltyp as [lt|]; [|done].
  destruct (IsConcrete lt); simpl.
  - by destruct (implements_NumericType _).
  - destruct rtyp as [rt|]; [|done]. by destruct (implements_NumericType _).
Qed.

Lemma TypeOf_state e c : res_state (TypeOf e c) = c.
Proof.
  induction e as [l IHl r_ IHr|func IHf args|name|v IHv|v IHv|l IHl op r_ IHr| | |];
    simpl; unfold_M; try done.
  - pose proof IHl as Hl. destruct (TypeOf l c) as [[lt|] c1|v c1];
      simpl in Hl; subst c1; try done.
    destruct (implements_ConcreteType lt); [|done].
    pose proof IHr as Hr. destruct (TypeOf r_ c) as [rt c1|v c1];
      simpl in Hr; subst c1; [|done].
    by destruct (Compatible (Some lt) rt).
  - pose proof IHf as Hf. destruct (TypeOf func c) as [ft c1|v c1];
      simpl in Hf; subst c1; [|done].
    pose proof (CallExpr_switch_state ft c) as Hs.
    by destruct (CallExpr_switch ft c).
  - pose proof (Variable_state name c) as Hv.
    by destruct (Compiler_Variable name c).
  - pose proof IHv as Hv. destruct (TypeOf v c) as [[ty|] c1|pv c1];
      simpl in Hv; subst c1; try done.
    by destruct (implements_ConcreteType ty).
  - pose proof IHv as Hv. destruct (TypeOf v c) as [[ty|] c1|pv c1];
      simpl in Hv; subst c1; try done.
    by destruct ty.
  - pose proof IHl as Hl. destruct (TypeOf l c) as [lt c1|v c1];
      simpl in Hl; subst c1; [|done].
    pose proof IHr as Hr. destruct (TypeOf r_ c) as [rt c1|v c1];
      simpl in Hr; subst c1; [|done].
    apply BinaryExpr_result_state.
Qed.

Lemma runCall_inv k c : pools_inv c → pools_inv (res_state (runCall k c)).
Proof.
  intros Hinv. destruct k; simpl; unfold_M; simpl.
  - by apply StartFunction_inv.
  - eapply pools_inv_same; [|exact Hinv]. unfold EndFunction.
    destruct (ret c); simpl; [done|]. apply Insn_same_pools.
  - eapply pools_inv_same; [apply Insn_same_pools|done].
  - done.
  - done.
  - done.
  - eapply pools_inv_same; [apply StartNamespace_same_pools|done].
  - eapply pools_inv_same; [apply EndNamespace_same_pools|done].
  - eapply pools_inv_same; [apply DeclareGlobal_same_pools|done].
  - by apply String_inv.
  - pose proof (Variable_state name c) as Hv.
    destruct (Compiler_Variable name c) as [v c1|v c1]; simpl in *; by subst c1.
  - pose proof (TypeOf_state e c) as Hv.
    destruct (TypeOf e c) as [v c1|v c1]; simpl in *; by subst c1.
Qed.

Lemma GenCalls_inv prog c : pools_inv c → pools_inv (res_state (GenCalls prog c)).
Proof.
  revert c. induction prog as [|k prog IH]; intros c Hinv; [done|].
  simpl. unfold mbind, M_bind.
  pose proof (runCall_inv k c Hinv) as Hstep.
  destruct (runCall k c) as [[] c1|v c1]; simpl in *; [by apply IH|done].
Qed.

End Reachable.

(** ** String interning and layout pooling *)

(** C4: starting from a consistent pool (that of a new compiler is empty),
    intern the strings [before], then [s], then the strings [later].  If [s]
    was not interned before, the call returns [$strI] with [I] the number of
    distinct strings interned before it and appends [s] to the pool.  Calling
    [String s] again afterwards returns the same global and changes nothing.
    The pool then holds [s] at index [I] only, and [Finish] writes one data
    line per pool entry.  The pool is consistent in every state a sequence of
    calls reaches from a new compiler. *)
Theorem C4_string_interned_once `{TypeMethods} (c : Compiler)
    (before : list string) (s : string) (later : list string) :
  (∀ prog, strpool_wf (res_state (GenCalls prog NewCompiler))) ∧
  (strpool_wf c →
   let c0 := intern_all before c in
   let g := (Compiler_String s c0).1 in
   let c1 := (Compiler_String s c0).2 in
   let c2 := intern_all later c1 in
   (s ∉ strs c ++ before →
      g = "str" +:+ pretty (size (list_to_set (C := gset string) (strs c ++ before))) ∧
      strs c1 = strs c0 ++ [s]) ∧
   Compiler_String s c2 = (g, c2) ∧
   ∃ i, Global_Operand g = "$str" +:+ pretty i ∧
        (∀ j, strs c2 !! j = Some s ↔ j = i) ∧
        codeW (r (Finish c2))
        = codeW (r c2) +:+ sconcat (str_lines (strs c2))
            +:+ sconcat (map data_line (data c2))).
Proof.
  split; [intros prog; by apply GenCalls_inv, pools_inv_new|].
  intros Hwf c0 g c1 c2.
  assert (strpool_wf c0) as Hwf0 by (by apply intern_all_wf).
  assert (strpool_wf c2) as Hwf2 by (by apply intern_all_wf, String_wf).
  destruct (String_interns s c0 Hwf0) as (i & Hi & Hg).
  assert (strM c2 !! s = Some i) as Hi2.
  { apply intern_all_keeps; [by apply String_wf|done]. }
  split; [|split].
  - intros Hnew.
    assert (s ∉ strs c0) as Hnew0.
    { intros Hin. apply Hnew.
      apply (elem_of_list_to_set (C := gset string)).
      rewrite <-(intern_all_elements before c Hwf).
      by apply elem_of_list_to_set. }
    destruct (String_fresh s c0 (strpool_fresh s c0 Hwf0 Hnew0)) as (Hg' & Hstrs & _).
    split; [|done]. subst g. rewrite Hg'.
    rewrite (strpool_size c0 Hwf0). unfold c0.
    by rewrite (intern_all_elements before c Hwf).
  - subst g. rewrite Hg. by apply String_known.
  - exists i. split; [by subst g; rewrite Hg|]. split.
    + intros j. rewrite <-(Hwf2 s j). rewrite Hi2. naive_solver.
    + apply Finish_text.
Qed.

Lemma C4_string_interned_once_witness :
  let c2 := intern_all ["hi"; "c"]
              (Compiler_String "hi" (intern_all ["a"; "b"; "a"] NewCompiler)).2 in
  (Compiler_String "hi" (intern_all ["a"; "b"; "a"] NewCompiler)).1 = "str2" ∧
  Compiler_String "hi" c2 = ("str2", c2).
Proof.
  pose proof (proj2 (C4_string_interned_once (H := SpecTypes.methods) NewCompiler
                ["a"; "b"; "a"] "hi" ["hi"; "c"]) strpool_wf_new) as (Hfirst & Hlater & _).
  assert ("hi" ∉ strs NewCompiler ++ ["a"; "b"; "a"]) as Hnew.
  { simpl. intros Hin.
    repeat (apply elem_of_cons in Hin as [?|Hin]; [done|]).
    by apply elem_of_nil in Hin. }
  destruct (Hfirst Hnew) as [Hg _].
  split.
  - rewrite Hg. vm_compute. reflexivity.
  - rewrite Hlater. f_equal.
Defined.

(** C5: the pool of a new compiler is sorted by identifier, and
    [CompositeType] keeps it sorted: it returns the identifier of the layout,
    leaves the pool alone when an entry has that identifier, and otherwise
    puts the layout between the entries before and after it.  A sorted pool
    has no identifier twice, and [Finish] writes one declaration per pool
    entry into the types buffer.  The pool is sorted in every state a
    sequence of calls reaches from a new compiler. *)
Theorem C5_pool_sorted_without_duplicates `{TypeMethods} :
  comp_sorted NewCompiler ∧
  (∀ layouts,
     comp_sorted (foldl (λ c layout, (CompositeType layout c).2) NewCompiler layouts)) ∧
  (∀ prog, comp_sorted (res_state (GenCalls prog NewCompiler))) ∧
  ∀ c layout,
    comp_sorted c →
    let c' := (CompositeType layout c).2 in
    (CompositeType layout c).1 = Ident layout ∧
    comp_sorted c' ∧
    NoDup (map Ident (comp c')) ∧
    Ident layout ∈ map Ident (comp c') ∧
    (∀ l0, l0 ∈ comp c → Ident l0 = Ident layout → comp c' = comp c) ∧
    ((∀ l0, l0 ∈ comp c → Ident l0 ≠ Ident layout) →
       ∃ pre post, comp c = pre ++ post ∧ comp c' = pre ++ layout :: post) ∧
    typeW (r (Finish c')) = typeW (r c') +:+ sconcat (map GenType_decl (comp c')).
Proof.
  split; [apply comp_sorted_new|]. split.
  { intros layouts. generalize comp_sorted_new. generalize NewCompiler.
    induction layouts as [|layout layouts IH]; intros c Hc; [done|].
    simpl. apply IH. by apply CompositeType_sorted. }
  split; [intros prog; by apply GenCalls_inv, pools_inv_new|].
  intros c layout Hs c'.
  assert (comp_sorted c') as Hs' by (by apply CompositeType_sorted).
  split; [done|]. split; [done|]. split; [by apply sorted_NoDup_Ident|].
  split; [|split; [|split]].
  - unfold c'. rewrite CompositeType_comp. apply insert_sorted_has.
  - intros l0 Hin Heq. unfold c'. rewrite CompositeType_comp.
    by eapply insert_sorted_found.
  - intros Hnew. unfold c'. rewrite CompositeType_comp.
    by apply insert_sorted_new.
  - destruct (Finish_text c') as (-> & _). apply GenType_text_fold.
Qed.

Lemma C5_pool_sorted_without_duplicates_witness :
  let l1 := [ {| Entry_Ty := "w"; Entry_N := 2 |}; {| Entry_Ty := "l"; Entry_N := 1 |} ] in
  let l2 := [ {| Entry_Ty := "b"; Entry_N := 3 |} ] in
  let c := (CompositeType l2 (CompositeType l1 NewCompiler).2).2 in
  comp_sorted c ∧ comp c = [l2; l1] ∧ (CompositeType l1 c).2 = c.
Proof.
  intros l1 l2 c.
  destruct (C5_pool_sorted_without_duplicates (H := SpecTypes.methods))
    as (Hnew & _ & _ & Hstep).
  destruct (Hstep NewCompiler l1 Hnew) as (_ & Hs1 & _).
  destruct (Hstep _ l2 Hs1) as (_ & Hs2 & _).
  split; [exact Hs2|]. split; reflexivity.
Defined.

(** ** Finish and the finished result *)

(** C6: [Finish] appends the declarations of the pooled layouts, in pool
    order, to the types buffer, and appends to the code buffer one line per
    pooled string followed by one line per recorded global, which for a
    global operand reads [data $name = align A { z S }] with the metrics of
    its type.  The finished result prints the types buffer before the code
    buffer, and a successful [Compile] returns the buffers [Finish] left. *)
Theorem C6_Finish_writes_in_order `{TypeMethods} :
  (∀ c,
     typeW (r (Finish c)) = typeW (r c) +:+ sconcat (map GenType_decl (comp c)) ∧
     codeW (r (Finish c))
     = codeW (r c) +:+ sconcat (str_lines (strs c)) +:+ sconcat (map data_line (data c)) ∧
     CompileResult_String (r (Finish c)) = typeW (r (Finish c)) +:+ codeW (r (Finish c))) ∧
  (∀ i str,
     str_line i str = "data $str" +:+ pretty i +:+ " = " +:+ IRString_String str +:+ nl) ∧
  (∀ name ty,
     data_line {| Loc := OGlobal name; Var_Ty := ty |}
     = "data $" +:+ name +:+ " = align " +:+ pretty (Align (Metrics (Concrete ty)))
         +:+ " { z " +:+ pretty (Size (Metrics (Concrete ty))) +:+ " }" +:+ nl) ∧
  (∀ (Program : Type) (GenProgram : Program → M unit) prog c c1,
     GenProgram prog c = Ok tt c1 →
     (Compile GenProgram prog c).1 = Returned (Some (r (Finish c1))) None).
Proof.
  split; [|split; [|split]].
  - intros c. destruct (Finish_text c) as (Ht & Hc & _).
    split; [|split]; [|done..]. rewrite Ht. apply GenType_text_fold.
  - done.
  - intros name ty. unfold data_line. simpl. unfold Global_String, Global_Operand.
    by rewrite !sapp_assoc.
  - intros Program GenProgram prog c c1 Hgen.
    unfold Compile, compile, mbind, M_bind. by rewrite Hgen.
Qed.

Lemma C6_Finish_writes_in_order_witness :
  (Compile (H := SpecTypes.methods) (GenCalls (H := SpecTypes.methods))
     [ CallDeclareGlobal false "bar" TypeI32; CallString "hi" ] NewCompiler).1
  = Returned (Some {| typeW := EmptyString;
                      codeW := "data $str0 = { b " +:+ dquote +:+ "hi" +:+ dquote
                                 +:+ ", b 0 }" +:+ nl
                                 +:+ "data $bar = align 4 { z 4 }" +:+ nl |}) None.
Proof.
  destruct (C6_Finish_writes_in_order (H := SpecTypes.methods)) as (_ & _ & _ & Hres).
  rewrite (Hres (list Call) (GenCalls (H := SpecTypes.methods))
             [ CallDeclareGlobal false "bar" TypeI32; CallString "hi" ] NewCompiler
             (res_state (GenCalls (H := SpecTypes.methods)
                [ CallDeclareGlobal false "bar" TypeI32; CallString "hi" ] NewCompiler))
             eq_refl).
  vm_compute. reflexivity.
Defined.

(** ** Globals *)

Lemma DeclareGlobal_duplicate extern name ty c cur m old :
  last (ns c) = Some cur → varsH c !! NS_Vars cur = Some m → m !! name = Some old →
  DeclareGlobal extern name ty c = Panic (PanicString "Variable already exists") c.
Proof.
  intros Hcur Hm Hname.
  unfold DeclareGlobal, mbind, M_bind, NS, gets, Vars_load. rewrite Hcur. simpl.
  rewrite Hm. simpl. by rewrite Hname.
Qed.

Lemma DeclareGlobal_new extern name ty c cur m :
  last (ns c) = Some cur → varsH c !! NS_Vars cur = Some m → m !! name = None →
  DeclareGlobal extern name ty c
  = Ok tt (set_data (if extern then data c
                     else data c ++ [global_of cur (extern, name, ty)])
             (set_varsH (<[NS_Vars cur := <[name := ty]> m]> (varsH c)) c)).
Proof.
  intros Hcur Hm Hname.
  unfold DeclareGlobal, mbind, M_bind, NS, gets, Vars_load, Vars_store. rewrite Hcur.
  simpl. rewrite Hm. simpl. rewrite Hname. rewrite Hm.
  destruct extern; simpl; [|done].
  unfold mret, M_ret. f_equal.
Qed.

Lemma DeclareGlobal_cases extern name ty c cur :
  last (ns c) = Some cur →
  match DeclareGlobal extern name ty c with
  | Ok _ c' =>
      ns c' = ns c ∧ r c' = r c ∧ strs c' = strs c ∧ comp c' = comp c ∧
      data c' = (if extern then data c else data c ++ [global_of cur (extern, name, ty)])
  | Panic _ c' => c' = c
  end.
Proof.
  intros Hcur. destruct (varsH c !! NS_Vars cur) as [m|] eqn:Hm.
  - destruct (m !! name) as [old|] eqn:Hname.
    + by rewrite (DeclareGlobal_duplicate extern name ty c cur m old).
    + rewrite (DeclareGlobal_new extern name ty c cur m) by done. by destruct extern.
  - unfold DeclareGlobal, mbind, M_bind, NS, gets, Vars_load, Vars_store. rewrite Hcur.
    simpl. rewrite Hm. simpl. by rewrite Hm.
Qed.

Lemma declare_all_data decls c c' cur :
  last (ns c) = Some cur → declare_all decls c = Ok tt c' →
  data c' = data c ++ defined_globals cur decls ∧
  r c' = r c ∧ strs c' = strs c ∧ comp c' = comp c.
Proof.
  revert c. induction decls as [|[[extern name] ty] decls IH]; intros c Hcur Hrun.
  { injection Hrun as <-. by rewrite app_nil_r. }
  simpl in Hrun. unfold mbind, M_bind in Hrun.
  pose proof (DeclareGlobal_cases extern name ty c cur Hcur) as Hstep.
  destruct (DeclareGlobal extern name ty c) as [[] c1|v c1]; [|done].
  destruct Hstep as (Hns & Hr & Hs & Hp & Hd).
  destruct (IH c1) as (-> & -> & -> & ->); [by rewrite Hns|done|].
  rewrite Hd, Hr, Hs, Hp. split; [|done].
  unfold defined_globals. rewrite filter_cons. simpl.
  destruct extern; simpl; [done|]. by rewrite <-(assoc_L (++)).
Qed.

(** C10: with the current namespace [cur] and its variable table [m],
    [DeclareGlobal] panics with [Variable already exists] when [m] has the
    name, extern or not, and leaves the compiler as it was; otherwise it binds
    the name to the type in that table and appends a data entry exactly when
    the global is not extern.  After a run of declarations the pending data
    are the globals that are not extern, in order, and [Finish] writes one
    data line for each of them and none for the others. *)
Theorem C10_DeclareGlobal_data_unless_extern `{TypeMethods} :
  (∀ extern name ty c cur m old,
     last (ns c) = Some cur → varsH c !! NS_Vars cur = Some m → m !! name = Some old →
     DeclareGlobal extern name ty c = Panic (PanicString "Variable already exists") c) ∧
  (∀ extern name ty c cur m,
     last (ns c) = Some cur → varsH c !! NS_Vars cur = Some m → m !! name = None →
     ∃ c', DeclareGlobal extern name ty c = Ok tt c' ∧
           Vars_load (NS_Vars cur) name c' = Some ty ∧
           data c' = (if extern then data c
                      else data c ++ [ {| Loc := OGlobal (NS_Name cur +:+ name);
                                          Var_Ty := ty |} ])) ∧
  (∀ decls c c' cur,
     last (ns c) = Some cur → declare_all decls c = Ok tt c' →
     data c' = data c ++ defined_globals cur decls ∧
     codeW (r (Finish c'))
     = codeW (r c) +:+ sconcat (str_lines (strs c))
         +:+ sconcat (map data_line (data c))
         +:+ sconcat (map data_line (defined_globals cur decls))).
Proof.
  split; [|split].
  - intros. by eapply DeclareGlobal_duplicate.
  - intros extern name ty c cur m Hcur Hm Hname. eexists. split; [|split].
    + by apply DeclareGlobal_new.
    + unfold Vars_load. simpl. rewrite lookup_insert_eq. simpl.
      by rewrite lookup_insert_eq.
    + by destruct extern.
  - intros decls c c' cur Hcur Hrun.
    destruct (declare_all_data decls c c' cur Hcur Hrun) as (Hd & Hr & Hs & _).
    split; [done|]. destruct (Finish_text c') as (_ & -> & _).
    by rewrite Hd, Hr, Hs, map_app, sconcat_app.
Qed.

Lemma C10_DeclareGlobal_data_unless_extern_witness :
  let decls := [ (true, "foo", TypeI32); (false, "bar", TypeI32) ] in
  let c' := res_state (declare_all decls NewCompiler) in
  codeW (r (Finish (H := SpecTypes.methods) c'))
  = "data $bar = align 4 { z 4 }" +:+ nl ∧
  DeclareGlobal true "bar" TypeI64 c' = Panic (PanicString "Variable already exists") c' ∧
  ∃ c'', DeclareGlobal true "baz" TypeI64 c' = Ok tt c'' ∧
         Vars_load 0 "baz" c'' = Some TypeI64 ∧ data c'' = data c'.
Proof.
  intros decls c'.
  destruct (C10_DeclareGlobal_data_unless_extern (H := SpecTypes.methods))
    as (Hdup & Hnew & Hrun).
  split; [|split].
  - destruct (Hrun decls NewCompiler c'
                {| NS_Name := EmptyString; NS_Vars := 0; NS_Typs := 0 |} eq_refl eq_refl)
      as [_ ->].
    vm_compute. reflexivity.
  - apply (Hdup true "bar" TypeI64 c'
             {| NS_Name := EmptyString; NS_Vars := 0; NS_Typs := 0 |}
             {[ "foo" := TypeI32; "bar" := TypeI32 ]} TypeI32).
    + reflexivity.
    + vm_compute. reflexivity.
    + vm_compute. reflexivity.
  - apply (Hnew true "baz" TypeI64 c'
             {| NS_Name := EmptyString; NS_Vars := 0; NS_Typs := 0 |}
             {[ "foo" := TypeI32; "bar" := TypeI32 ]}).
    + reflexivity.
    + vm_compute. reflexivity.
    + vm_compute. reflexivity.
Defined.

(** ** Variable lookup *)

Lemma nsVar_lookup (i : nat) name c n :
  ns c !! i = Some n →
  nsVar (Z.of_nat i) name c
  = Ok (match Vars_load (NS_Vars n) name c with
        | Some ty => Some {| Loc := OGlobal (NS_Name n +:+ name); Var_Ty := ty |}
        | None => None
        end) c.
Proof.
  intros Hn. unfold nsVar.
  rewrite bool_decide_eq_true_2 by (apply lookup_lt_Some in Hn; lia).
  rewrite Nat2Z.id, Hn. by destruct (Vars_load (NS_Vars n) name c).
Qed.

Lemma Insn_vars retVar retType opcode operands c :
  vars (Insn retVar retType opcode operands c) = vars c.
Proof. unfold Insn. destruct (ret c); [done|]. by destruct (Temporary_IsZero retVar). Qed.

Section Locals.
Context `{TypeMethods}.

Lemma allocLocal_vars loc ty c c' : allocLocal loc ty c = Ok tt c' → vars c' = vars c.
Proof.
  unfold allocLocal, modify, panic.
  repeat case_bool_decide; intros [= <-]; apply Insn_vars.
Qed.

Lemma StartFunction_locals_bound params i ptemps c c' (Q : string → Prop) :
  (∀ n, Q n → temp_bound c n) →
  StartFunction_locals i params ptemps c = Ok tt c' →
  ∀ n, Q n ∨ n ∈ map Param_Name params → temp_bound c' n.
Proof.
  revert i c Q. induction params as [|p params IH]; intros i c Q HQ Hrun n Hn.
  { injection Hrun as <-. destruct Hn as [Hn|Hn]; [by apply HQ|].
    by apply elem_of_nil in Hn. }
  simpl in Hrun. unfold mbind, M_bind, modify, mret, M_ret in Hrun. simpl in Hrun.
  assert (∃ loc c2, vars c2 = vars c ∧
            StartFunction_locals (S i) params ptemps
              (set_vars (<[Param_Name p :=
                           {| Loc := OTemporary loc; Var_Ty := Param_Ty p |}]> (vars c2)) c2)
            = Ok tt c') as (loc & c2 & Hvars & Hrest).
  { case_bool_decide.
    - destruct (allocLocal _ _ _) as [[] c1|v c1] eqn:Halloc; [|done].
      apply allocLocal_vars in Halloc. simpl in Halloc.
      destruct (IRTypeName_frame (Param_Ty p) c1) as (_ & _ & _ & _ & _ & Hv).
      destruct (IRTypeName (Param_Ty p) c1) as [name c2]; simpl in *.
      eexists _, _. split; [|exact Hrun].
      by rewrite Insn_vars, Hv, Halloc.
    - eexists _, _. split; [|exact Hrun]. done. }
  eapply (IH (S i) _ (λ n, Q n ∨ n = Param_Name p)); [|exact Hrest|].
  - intros m [Hm| ->]; unfold temp_bound; simpl.
    + destruct (decide (Param_Name p = m)) as [<-|Hne].
      * rewrite lookup_insert_eq. eauto.
      * rewrite lookup_insert_ne, Hvars by done. by apply HQ.
    + rewrite lookup_insert_eq. eauto.
  - simpl in Hn. destruct Hn as [Hn|[->|Hn]%elem_of_cons]; auto.
Qed.

Lemma StartFunction_binds_temporaries export name params retType c c' :
  StartFunction export name params retType c = Ok tt c' →
  ∀ p, p ∈ params → temp_bound c' (Param_Name p).
Proof.
  unfold StartFunction. intros Hrun p Hp.
  destruct (StartFunction_params 0 params EmptyString _ c) as [[pbuild ptemps] c1].
  destruct (NS c1) as [cur c2|v c2]; [|done].
  eapply (StartFunction_locals_bound params 0 ptemps _ c' (λ _, False)); [done|exact Hrun|].
  right. by apply list_elem_of_fmap_2.
Qed.

End Locals.

(** C7: with a current namespace [cur] and the root namespace [root] on the
    stack, [Variable] returns the binding of the local table if it has the
    name; else the global [$prefix name] of the current namespace if its
    table has the name; else that of the root namespace; else it panics with
    the message [Undefined variable: name].  The compiler is not changed.
    The bindings [StartFunction] puts into the local table are temporaries. *)
Theorem C7_Variable_lookup_order `{TypeMethods}
    (c : Compiler) (name : string) (cur root : Namespace) :
  last (ns c) = Some cur → head (ns c) = Some root →
  Compiler_Variable name c
  = match vars c !! name with
    | Some v => Ok v c
    | None =>
        match Vars_load (NS_Vars cur) name c with
        | Some ty => Ok {| Loc := OGlobal (NS_Name cur +:+ name); Var_Ty := ty |} c
        | None =>
            match Vars_load (NS_Vars root) name c with
            | Some ty => Ok {| Loc := OGlobal (NS_Name root +:+ name); Var_Ty := ty |} c
            | None => Panic (PanicString ("Undefined variable: " +:+ name)) c
            end
        end
    end ∧
  (∀ n, Operand_Operand (OGlobal (NS_Name n +:+ name)) = "$" +:+ NS_Name n +:+ name) ∧
  (∀ export fname params retType c0 c1 p,
     StartFunction export fname params retType c0 = Ok tt c1 → p ∈ params →
     ∃ t ty, vars c1 !! Param_Name p = Some {| Loc := OTemporary t; Var_Ty := ty |}).
Proof.
  intros Hcur Hroot. split; [|split; [done|]].
  2: { intros export fname params retType c0 c1 p Hrun Hp.
       by apply (StartFunction_binds_temporaries export fname params retType c0 c1 Hrun). }
  unfold Compiler_Variable, mbind, M_bind, gets, mret, M_ret.
  destruct (vars c !! name) as [v|]; [done|].
  rewrite last_lookup in Hcur. rewrite head_lookup in Hroot.
  assert (Z.of_nat (length (ns c)) - 1 = Z.of_nat (pred (length (ns c))))%Z as ->.
  { apply lookup_lt_Some in Hcur. lia. }
  rewrite (nsVar_lookup _ name c cur Hcur).
  destruct (Vars_load (NS_Vars cur) name c) as [ty|]; [done|].
  change 0%Z with (Z.of_nat 0). rewrite (nsVar_lookup 0 name c root Hroot).
  by destruct (Vars_load (NS_Vars root) name c).
Qed.

Lemma C7_Variable_lookup_order_witness :
  let c0 := res_state (GenCalls (H := SpecTypes.methods)
              [ CallDeclareGlobal false "g" TypeI64;
                CallStartNamespace "m";
                CallDeclareGlobal false "h" TypeI32 ] NewCompiler) in
  let params := [ {| Param_Name := "x"; Param_Ty := TypeI8 |} ] in
  let c := res_state (StartFunction (H := SpecTypes.methods) false "f" params
                        EmptyString c0) in
  Compiler_Variable "x" c = Ok {| Loc := OTemporary 2; Var_Ty := TypeI8 |} c ∧
  Compiler_Variable "h" c = Ok {| Loc := OGlobal "m.h"; Var_Ty := TypeI32 |} c ∧
  Compiler_Variable "g" c = Ok {| Loc := OGlobal "g"; Var_Ty := TypeI64 |} c ∧
  Compiler_Variable "y" c = Panic (PanicString "Undefined variable: y") c ∧
  ∃ t ty, vars c !! "x" = Some {| Loc := OTemporary t; Var_Ty := ty |}.
Proof.
  intros c0 params c.
  pose proof (λ name, C7_Variable_lookup_order (H := SpecTypes.methods) c name
    {| NS_Name := "m."; NS_Vars := 1; NS_Typs := 1 |}
    {| NS_Name := EmptyString; NS_Vars := 0; NS_Typs := 0 |} eq_refl eq_refl) as Hlookup.
  repeat split; try (rewrite (proj1 (Hlookup _)); vm_compute; reflexivity).
  destruct (Hlookup "x") as (_ & _ & Hbound).
  apply (Hbound false "f" params EmptyString c0 c {| Param_Name := "x"; Param_Ty := TypeI8 |}).
  - vm_compute. reflexivity.
  - by left.
Defined.

(** ** Typing binary expressions *)

(** C8 (as amended): when both operands have a type, [TypeOf] of a binary
    expression fails if the types are incompatible and also if the chosen
    concrete type is not numeric; otherwise it yields [Concrete] of the left
    type, or of the right type when the left is not concrete and the right
    is.  A failure of an operand is the failure of the expression. *)
Theorem C8_BinaryExpr_TypeOf `{TypeMethods} (l r_ : Expr) (op : string) (c : Compiler) :
  (∀ lt rt c1 c2,
     TypeOf l c = Ok (Some lt) c1 → TypeOf r_ c1 = Ok (Some rt) c2 →
     TypeOf (BinaryExpr l op r_) c
     = if negb (Compatible (Some lt) (Some rt)) then
         Panic (PanicString "Operands of binary expression are incompatible") c2
       else
         let ctyp := if negb (IsConcrete lt) && IsConcrete rt
                     then Concrete rt else Concrete lt in
         if implements_NumericType ctyp then Ok (Some ctyp) c2
         else Panic (PanicString "Operand of binary expression is of non-numeric type") c2) ∧
  (∀ ltyp rtyp c1 c2,
     TypeOf l c = Ok ltyp c1 → TypeOf r_ c1 = Ok rtyp c2 →
     Compatible ltyp rtyp = false →
     TypeOf (BinaryExpr l op r_) c
     = Panic (PanicString "Operands of binary expression are incompatible") c2) ∧
  (∀ v c1, TypeOf l c = Panic v c1 → TypeOf (BinaryExpr l op r_) c = Panic v c1) ∧
  (∀ ltyp v c1 c2,
     TypeOf l c = Ok ltyp c1 → TypeOf r_ c1 = Panic v c2 →
     TypeOf (BinaryExpr l op r_) c = Panic v c2).
Proof.
  split; [|split; [|split]].
  - intros lt rt c1 c2 Hl Hr. simpl. unfold mbind, M_bind. rewrite Hl, Hr.
    unfold BinaryExpr_result, panic, mret, M_ret.
    destruct (Compatible (Some lt) (Some rt)); simpl; [|done].
    unfold mbind, M_bind.
    destruct (IsConcrete lt); simpl.
    + by destruct (implements_NumericType (Concrete lt)).
    + by destruct (implements_NumericType (if IsConcrete rt then Concrete rt else Concrete lt)).
  - intros ltyp rtyp c1 c2 Hl Hr Hcompat. simpl. unfold mbind, M_bind. rewrite Hl, Hr.
    unfold BinaryExpr_result. by rewrite Hcompat.
  - intros v c1 Hl. simpl. unfold mbind, M_bind. by rewrite Hl.
  - intros ltyp v c1 c2 Hl Hr. simpl. unfold mbind, M_bind. by rewrite Hl, Hr.
Qed.

Lemma C8_BinaryExpr_TypeOf_witness :
  let c := res_state (DeclareGlobal false "i" TypeI32 NewCompiler) in
  TypeOf (H := SpecTypes.methods) (BinaryExpr (IntegerExpr "4") "+" (VarExpr "i")) c
  = Ok (Some TypeI32) c ∧
  TypeOf (H := SpecTypes.methods) (BinaryExpr (VarExpr "i") "+" (StringExpr "s")) c
  = Panic (PanicString "Operands of binary expression are incompatible") c ∧
  TypeOf (H := SpecTypes.methods) (BinaryExpr (VarExpr "j") "+" (VarExpr "i")) c
  = Panic (PanicString "Undefined variable: j") c ∧
  TypeOf (H := SpecTypes.methods) (BinaryExpr (VarExpr "i") "+" (VarExpr "j")) c
  = Panic (PanicString "Undefined variable: j") c.
Proof.
  intros c. split; [|split; [|split]].
  - destruct (C8_BinaryExpr_TypeOf (H := SpecTypes.methods)
                (IntegerExpr "4") (VarExpr "i") "+" c) as (Hboth & _).
    rewrite (Hboth IntLitType TypeI32 c c eq_refl eq_refl). reflexivity.
  - destruct (C8_BinaryExpr_TypeOf (H := SpecTypes.methods)
                (VarExpr "i") (StringExpr "s") "+" c) as (_ & Hbad & _).
    apply (Hbad (Some TypeI32) (Some (PointerType (Some TypeI8))) c c);
      reflexivity.
  - destruct (C8_BinaryExpr_TypeOf (H := SpecTypes.methods)
                (VarExpr "j") (VarExpr "i") "+" c) as (_ & _ & Hleft & _).
    apply Hleft. reflexivity.
  - destruct (C8_BinaryExpr_TypeOf (H := SpecTypes.methods)
                (VarExpr "i") (VarExpr "j") "+" c) as (_ & _ & _ & Hright).
    apply (Hright (Some TypeI32) _ c c); reflexivity.
Defined.

(** Against C8 as stated: a global of a struct type is compatible with
    itself, yet the binary expression over it has no type. *)
Lemma C8_counterexample :
  let S := StructType [("a", TypeI32)] in
  let c := res_state (DeclareGlobal false "s" S NewCompiler) in
  TypeOf (H := SpecTypes.methods) (VarExpr "s") c = Ok (Some S) c ∧
  Compatible (TypeMethods := SpecTypes.methods) (Some S) (Some S) = true ∧
  TypeOf (H := SpecTypes.methods) (BinaryExpr (VarExpr "s") "+" (VarExpr "s")) c
  = Panic (PanicString "Operand of binary expression is of non-numeric type") c.
Proof. intros S c. repeat split; vm_compute; reflexivity. Qed.

(** ** Compile and panics *)

Section CompilePanics.
Context `{TypeMethods} {Program : Type} (GenProgram : Program → M unit).

Lemma Compile_cases prog c :
  Compile GenProgram prog c
  = match compile GenProgram prog c with
    | Ok _ c1 =>
        (Returned (Some (r c1)) None,
         set_r {| typeW := EmptyString; codeW := EmptyString |} c1)
    | Panic (PanicString e) c1 => (Returned None (Some e), c1)
    | Panic (PanicRuntime e) c1 => (Escaped (PanicRuntime e), c1)
    end.
Proof.
  unfold Compile. destruct (compile GenProgram prog c) as [[] c1|[e|e] c1]; done.
Qed.

Lemma compile_panics prog c v c1 :
  GenProgram prog c = Panic v c1 → compile GenProgram prog c = Panic v c1.
Proof. intros Hgen. unfold compile, mbind, M_bind. by rewrite Hgen. Qed.

End CompilePanics.

Lemma CallExpr_switch_not_func `{TypeMethods} to c :
  (∀ params ret_, to ≠ Some (FuncType params ret_)) →
  CallExpr_switch (Some (PointerType to)) c = Panic (PanicRuntime TypeAssertionError) c.
Proof.
  intros Hto. unfold CallExpr_switch.
  destruct to as [[]|]; try done. by destruct (Hto Param Ret).
Qed.

(** C9: [Compile] turns a panic of the lowering into its error result
    exactly when the panic value is a string; any other panic value escapes.
    A call whose callee has a pointer type that does not point to a function
    type panics in [CallExpr.typeOf] with a failed type assertion, which is
    not a string, so a program whose lowering types such a call makes
    [Compile] panic instead of returning an error. *)
Theorem C9_Compile_recovers_strings_only `{TypeMethods} :
  (∀ (Program : Type) (GenProgram : Program → M unit) prog c,
     (∀ e c1, compile GenProgram prog c = Panic (PanicString e) c1 →
              Compile GenProgram prog c = (Returned None (Some e), c1)) ∧
     (∀ e c1, compile GenProgram prog c = Panic (PanicRuntime e) c1 →
              Compile GenProgram prog c = (Escaped (PanicRuntime e), c1)) ∧
     (∀ e, (Compile GenProgram prog c).1 = Returned None (Some e) ↔
           ∃ c1, compile GenProgram prog c = Panic (PanicString e) c1)) ∧
  (∀ func args to (c c1 : Compiler),
     TypeOf func c = Ok (Some (PointerType to)) c1 →
     (∀ params ret_, to ≠ Some (FuncType params ret_)) →
     CallExpr_typeOf func c = Panic (PanicRuntime TypeAssertionError) c1 ∧
     TypeOf (CallExpr func args) c = Panic (PanicRuntime TypeAssertionError) c1 ∧
     ∀ (Program : Type) (GenProgram : Program → M unit) prog (k : option Typ → M unit),
       GenProgram prog = TypeOf (CallExpr func args) ≫= k →
       Compile GenProgram prog c = (Escaped (PanicRuntime TypeAssertionError), c1)).
Proof.
  split.
  - intros Program GenProgram prog c. rewrite Compile_cases. split; [|split].
    + by intros e c1 ->.
    + by intros e c1 ->.
    + intros e. destruct (compile GenProgram prog c) as [[] c1|[e'|e'] c1]; simpl.
      * split; [done|]. by intros [? ?].
      * split; [intros [= ->]; by exists c1|]. by intros [? [= ->]].
      * split; [done|]. by intros [? ?].
  - intros func args to c c1 Hfunc Hto.
    assert (TypeOf (CallExpr func args) c = Panic (PanicRuntime TypeAssertionError) c1)
      as Hcall.
    { simpl. unfold mbind, M_bind. rewrite Hfunc.
      by rewrite CallExpr_switch_not_func. }
    split; [|split; [done|]].
    + unfold CallExpr_typeOf, mbind, M_bind. rewrite Hfunc.
      by apply CallExpr_switch_not_func.
    + intros Program GenProgram prog k Hgen.
      rewrite Compile_cases.
      rewrite (compile_panics GenProgram prog c (PanicRuntime TypeAssertionError) c1);
        [done|].
      rewrite Hgen. unfold mbind, M_bind at 1. by rewrite Hcall.
Qed.

Lemma C9_Compile_recovers_strings_only_witness :
  let prog := [ CallDeclareGlobal false "p" (PointerType (Some TypeI32));
                CallTypeOf (CallExpr (VarExpr "p") []) ] in
  let c := res_state (DeclareGlobal false "p" (PointerType (Some TypeI32)) NewCompiler) in
  (∃ c1,
     Compile (H := SpecTypes.methods) (GenCalls (H := SpecTypes.methods)) prog NewCompiler
     = (Escaped (PanicRuntime TypeAssertionError), c1)) ∧
  TypeOf (H := SpecTypes.methods) (CallExpr (VarExpr "p") []) c
  = Panic (PanicRuntime TypeAssertionError) c ∧
  Compile (H := SpecTypes.methods)
    (λ _ : unit, TypeOf (H := SpecTypes.methods) (CallExpr (VarExpr "p") [])
                   ≫= λ _, mret tt) tt c
  = (Escaped (PanicRuntime TypeAssertionError), c).
Proof.
  intros prog c.
  destruct (C9_Compile_recovers_strings_only (H := SpecTypes.methods)) as [Hrec Hcall].
  split; [|split].
  - destruct (Hrec (list Call) (GenCalls (H := SpecTypes.methods)) prog NewCompiler)
      as (_ & Hesc & _).
    eexists. apply Hesc. vm_compute. reflexivity.
  - destruct (Hcall (VarExpr "p") [] (Some TypeI32) c c) as (_ & Htype & _).
    + vm_compute. reflexivity.
    + intros params ret_. discriminate.
    + exact Htype.
  - destruct (Hcall (VarExpr "p") [] (Some TypeI32) c c) as (_ & _ & Hdriver).
    + vm_compute. reflexivity.
    + intros params ret_. discriminate.
    + apply (Hdriver unit _ tt (λ _, mret tt)). reflexivity.
Defined.

(** ** Compile after a failed translation *)

(** C1 (as amended): when the lowering panics with a message, [Compile]
    returns no result and that message as its error, and resets none of the
    per-translation state: the counters, the local table, the string pool,
    the composite pool and the pending global data are those the lowering
    had reached when it failed. *)
Theorem C1_Compile_failure_keeps_state `{TypeMethods} {Program : Type}
    (GenProgram : Program → M unit) (prog : Program) (c c1 : Compiler) (e : string) :
  compile GenProgram prog c = Panic (PanicString e) c1 →
  let c2 := (Compile GenProgram prog c).2 in
  (Compile GenProgram prog c).1 = Returned None (Some e) ∧
  temp c2 = temp c1 ∧ blk c2 = blk c1 ∧ vars c2 = vars c1 ∧
  strs c2 = strs c1 ∧ strM c2 = strM c1 ∧ comp c2 = comp c1 ∧ data c2 = data c1.
Proof. intros Hfail. rewrite Compile_cases, Hfail. done. Qed.

Lemma C1_Compile_failure_keeps_state_witness :
  let c2 := (Compile (H := SpecTypes.methods) (GenCalls (H := SpecTypes.methods))
               failing_program NewCompiler).2 in
  (Compile (H := SpecTypes.methods) (GenCalls (H := SpecTypes.methods))
     failing_program NewCompiler).1
  = Returned None (Some "Undefined variable: y") ∧
  temp c2 = 1%N ∧ blk c2 = 1%N ∧ strs c2 = ["hi"].
Proof.
  intros c2.
  destruct (C1_Compile_failure_keeps_state (H := SpecTypes.methods)
              (GenCalls (H := SpecTypes.methods)) failing_program NewCompiler
              (res_state (compile (H := SpecTypes.methods)
                 (GenCalls (H := SpecTypes.methods)) failing_program NewCompiler))
              "Undefined variable: y")
    as (Hout & Htemp & Hblk & _ & Hstrs & _).
  { vm_compute. reflexivity. }
  split; [exact Hout|]. split; [|split].
  - etrans; [exact Htemp|]. vm_compute. reflexivity.
  - etrans; [exact Hblk|]. vm_compute. reflexivity.
  - etrans; [exact Hstrs|]. vm_compute. reflexivity.
Defined.

(** Against C1 as stated: after the failed translation the partial code,
    the counters, the locals and the pools are still there, and compiling
    the empty program next does not give what a new compiler gives. *)
Lemma C1_counterexample :
  let Compile' := Compile (H := SpecTypes.methods) (GenCalls (H := SpecTypes.methods)) in
  let c2 := (Compile' failing_program NewCompiler).2 in
  (Compile' failing_program NewCompiler).1
  = Returned None (Some "Undefined variable: y") ∧
  codeW (r c2) = "function $f(:w %t1) {" +:+ nl +:+ "@start" +:+ nl ∧
  temp c2 = 1%N ∧ blk c2 = 1%N ∧
  vars c2 !! "x" = Some {| Loc := OTemporary 1; Var_Ty := StructType [("a", TypeI32)] |} ∧
  strs c2 = ["hi"] ∧
  comp c2 = [[ {| Entry_Ty := "w"; Entry_N := 1 |} ]] ∧
  data c2 = [ {| Loc := OGlobal "g"; Var_Ty := TypeI32 |} ] ∧
  (Compile' [] NewCompiler).1
  = Returned (Some {| typeW := EmptyString; codeW := EmptyString |}) None ∧
  (Compile' [] c2).1
  = Returned (Some {| typeW := "type :w = { w }" +:+ nl;
                      codeW := "function $f(:w %t1) {" +:+ nl +:+ "@start" +:+ nl
                                 +:+ "data $str0 = { b " +:+ dquote +:+ "hi" +:+ dquote
                                 +:+ ", b 0 }" +:+ nl
                                 +:+ "data $g = align 4 { z 4 }" +:+ nl |}) None.
Proof. intros Compile' c2. repeat split; vm_compute; reflexivity. Qed.

(** * Further properties *)

(** ** Counters *)

Lemma uint_incr_small (t : N) : (t + 1 < 2 ^ 64)%N → uint_incr t = (t + 1)%N.
Proof. intros Ht. unfold uint_incr. by apply N.mod_small. Qed.

Lemma Temporaries_lookup (n : nat) c :
  (temp c + N.of_nat n < 2 ^ 64)%N →
  length (Temporaries n c).1 = n ∧
  temp (Temporaries n c).2 = (temp c + N.of_nat n)%N ∧
  ∀ i, i < n → (Temporaries n c).1 !! i = Some (temp c + N.of_nat (S i))%N.
Proof.
  revert c. induction n as [|n IH]; intros c Hn; simpl.
  { split; [done|]. split; [by rewrite N.add_0_r|]. intros i Hi. lia. }
  destruct (IH (set_temp (uint_incr (temp c)) c)) as (Hlen & Htemp & Hlook).
  { simpl. rewrite uint_incr_small by lia. lia. }
  simpl in *. rewrite uint_incr_small in * by lia.
  destruct (Temporaries n _) as [ts c'] eqn:Hts. simpl in *.
  split; [by rewrite Hlen|]. split; [rewrite Htemp; lia|].
  intros [|i] Hi; simpl.
  - f_equal; lia.
  - rewrite Hlook by lia. f_equal; lia.
Qed.

Lemma Blocks_lookup (n : nat) c :
  (blk c + N.of_nat n < 2 ^ 64)%N →
  length (Blocks n c).1 = n ∧
  blk (Blocks n c).2 = (blk c + N.of_nat n)%N ∧
  ∀ i, i < n → (Blocks n c).1 !! i = Some (blk c + N.of_nat (S i))%N.
Proof.
  revert c. induction n as [|n IH]; intros c Hn; simpl.
  { split; [done|]. split; [by rewrite N.add_0_r|]. intros i Hi. lia. }
  destruct (IH (set_blk (uint_incr (blk c)) c)) as (Hlen & Hblk & Hlook).
  { simpl. rewrite uint_incr_small by lia. lia. }
  simpl in *. rewrite uint_incr_small in * by lia.
  destruct (Blocks n _) as [bs c'] eqn:Hbs. simpl in *.
  split; [by rewrite Hlen|]. split; [rewrite Hblk; lia|].
  intros [|i] Hi; simpl.
  - f_equal; lia.
  - rewrite Hlook by lia. f_equal; lia.
Qed.

Lemma Temporary_Operand_inj : Inj (=) (=) Temporary_Operand.
Proof.
  intros t1 t2 Heq. unfold Temporary_Operand in Heq.
  apply (inj (String.app "%t")) in Heq. by apply (inj pretty) in Heq.
Qed.

Lemma Block_Operand_inj : Inj (=) (=) Block_Operand.
Proof.
  intros b1 b2 Heq. unfold Block_Operand in Heq.
  apply (inj (String.app "@b")) in Heq. by apply (inj pretty) in Heq.
Qed.

Lemma consecutive_NoDup (base : N) (n : nat) (l : list N) :
  length l = n →
  (∀ i, i < n → l !! i = Some (base + N.of_nat (S i))%N) →
  NoDup l ∧ Forall (λ t, t ≠ 0%N) l.
Proof.
  intros Hlen Hlook. split.
  - apply NoDup_alt. intros i j t Hi Hj.
    pose proof (lookup_lt_Some _ _ _ Hi). pose proof (lookup_lt_Some _ _ _ Hj).
    rewrite Hlook in Hi by lia. rewrite Hlook in Hj by lia.
    injection Hi as <-. injection Hj as Hj. lia.
  - apply Forall_lookup. intros i t Hi.
    pose proof (lookup_lt_Some _ _ _ Hi). rewrite Hlook in Hi by lia.
    injection Hi as <-. lia.
Qed.

(** X1: as long as the counter stays below 2^64, [n] calls of [Temporary]
    return the [n] numbers after the counter, in order: they are pairwise
    distinct, none is the zero temporary that [Insn] takes for "no result",
    and they print as pairwise distinct operands. *)
Theorem Temporary_hands_out_fresh_numbers (n : nat) (c : Compiler) :
  (temp c + N.of_nat n < 2 ^ 64)%N →
  let ts := (Temporaries n c).1 in
  length ts = n ∧
  (∀ i, i < n → ts !! i = Some (temp c + N.of_nat (S i))%N) ∧
  temp (Temporaries n c).2 = (temp c + N.of_nat n)%N ∧
  NoDup ts ∧
  Forall (λ t, Temporary_IsZero t = false) ts ∧
  NoDup (map Temporary_Operand ts).
Proof.
  intros Hn ts. destruct (Temporaries_lookup n c Hn) as (Hlen & Htemp & Hlook).
  destruct (consecutive_NoDup (temp c) n ts Hlen Hlook) as [Hnd Hnz].
  repeat split; try done.
  - eapply Forall_impl; [exact Hnz|]. intros t Ht. unfold Temporary_IsZero.
    by apply bool_decide_eq_false_2.
  - apply (NoDup_fmap_2 _). exact Hnd.
Qed.

Lemma Temporary_hands_out_fresh_numbers_witness :
  (Temporaries 3 NewCompiler).1 = [1; 2; 3]%N ∧
  NoDup (map Temporary_Operand (Temporaries 3 NewCompiler).1).
Proof.
  destruct (Temporary_hands_out_fresh_numbers 3 NewCompiler) as (_ & _ & _ & _ & _ & Hnd).
  { simpl. lia. }
  split; [reflexivity|exact Hnd].
Defined.

(** X2: the same for [Block]: below 2^64 the blocks handed out are the
    numbers after the counter, pairwise distinct, and print as pairwise
    distinct labels. *)
Theorem Block_hands_out_fresh_numbers (n : nat) (c : Compiler) :
  (blk c + N.of_nat n < 2 ^ 64)%N →
  let bs := (Blocks n c).1 in
  length bs = n ∧
  (∀ i, i < n → bs !! i = Some (blk c + N.of_nat (S i))%N) ∧
  blk (Blocks n c).2 = (blk c + N.of_nat n)%N ∧
  NoDup bs ∧
  NoDup (map Block_Operand bs).
Proof.
  intros Hn bs. destruct (Blocks_lookup n c Hn) as (Hlen & Hblk & Hlook).
  destruct (consecutive_NoDup (blk c) n bs Hlen Hlook) as [Hnd Hnz].
  repeat split; try done.
  apply (NoDup_fmap_2 _). exact Hnd.
Qed.

Lemma Block_hands_out_fresh_numbers_witness :
  (Blocks 2 NewCompiler).1 = [1; 2]%N ∧
  NoDup (map Block_Operand (Blocks 2 NewCompiler).1).
Proof.
  destruct (Block_hands_out_fresh_numbers 2 NewCompiler) as (_ & _ & _ & _ & Hnd).
  { simpl. lia. }
  split; [reflexivity|exact Hnd].
Defined.
